(** * aws-c-common: byte cursors, the speculation-safe index clamp and the
      GNU atomics backend

    A shallow embedding of
      - [aws_nospec_index], [aws_byte_cursor_advance] and
        [aws_byte_cursor_advance_nospec] (byte_buf header), and
      - the [aws_atomic_*] wrappers of [atomics_gnu.inl].

    [size_t] values are integers in [0, 2^w) with the wrap-around of every
    arithmetic operation written out; [w] is the width of [size_t] in bits
    and is a parameter of the whole development. *)

From Stdlib Require Import ZArith Lia List Bool.
Import ListNotations.

Local Open Scope Z_scope.

(* ================================================================== *)
(** ** The [size_t] type *)

(** [SIZE_MAX] of <stdint.h> for a [w]-bit [size_t]. *)
Definition SIZE_MAX (w : positive) : Z := 2 ^ Z.pos w - 1.

(** Reduction of a mathematical integer to its [w]-bit representative. *)
Definition size_wrap (w : positive) (x : Z) : Z := x mod 2 ^ Z.pos w.

(** The values a [size_t] variable can hold. *)
Definition is_size_t (w : positive) (x : Z) : Prop := 0 <= x <= SIZE_MAX w.

(** Unsigned arithmetic of C on [size_t]: [+], [-], [*] and [~]. *)
Definition size_add (w : positive) (a b : Z) : Z := size_wrap w (a + b).
Definition size_sub (w : positive) (a b : Z) : Z := size_wrap w (a - b).
Definition size_mul (w : positive) (a b : Z) : Z := size_wrap w (a * b).
Definition size_not (w : positive) (a : Z) : Z := size_wrap w (Z.lnot a).

(** The value of the most significant bit of a [size_t]. *)
Definition top_bit (w : positive) : Z := 2 ^ (Z.pos w - 1).

(* ================================================================== *)
(** ** Byte cursors *)

(** A pointer is a flat byte address; pointer arithmetic on [uint8_t *]
    adds the byte count to the address.  C defines it only inside one
    object, so an address never wraps around. *)
Definition pointer := Z.
Definition NULL : pointer := 0.
Definition ptr_add (p : pointer) (n : Z) : pointer := p + n.

(** [struct aws_byte_buf]. *)
Record aws_byte_buf := mk_buf { buffer : pointer; buf_len : Z }.

(** [struct aws_byte_cursor]. *)
Record aws_byte_cursor := mk_cursor { ptr : pointer; len : Z }.

Definition aws_byte_cursor_from_buf (buf : aws_byte_buf) : aws_byte_cursor :=
  {| ptr := buffer buf; len := buf_len buf |}.

(** The empty cursor: [->ptr = NULL, ->len = 0]. *)
Definition empty_cursor : aws_byte_cursor := {| ptr := NULL; len := 0 |}.

(** The predefined macros the preprocessor conditionals of
    [aws_nospec_index] test. *)
Record toolchain := mk_toolchain {
  defined_GNUC_or_clang : bool;  (* defined(__GNUC__) || defined(__clang__) *)
  defined_MSVC_LANG : bool       (* defined(_MSVC_LANG) *)
}.

Definition gnu_toolchain : toolchain :=
  {| defined_GNUC_or_clang := true; defined_MSVC_LANG := false |}.

Definition msvc_toolchain : toolchain :=
  {| defined_GNUC_or_clang := false; defined_MSVC_LANG := true |}.

(** The empty [asm volatile] statement with a ["+r"] constraint: it hides
    the value from the optimizer and leaves it as it is. *)
Definition asm_volatile_barrier (x : Z) : Z := x.

(** [*((volatile uint8_t * )&x) += k]: the byte of [x] at its lowest
    address, the least significant one on the little-endian targets of
    that compiler, is read, increased modulo 256 and written back. *)
Definition volatile_byte_add (x k : Z) : Z :=
  x - x mod 256 + (x mod 256 + k) mod 256.

(** The statements that hide the index from the optimizer. *)
Definition optimizer_barrier (tc : toolchain) (index : Z) : Z :=
  let index :=
    if defined_GNUC_or_clang tc then asm_volatile_barrier index else index in
  let index :=
    if defined_MSVC_LANG tc then volatile_byte_add index 0 else index in
  index.

(** The mask [aws_nospec_index] ANDs into its index: the value of
    [combined_mask] when the function returns. *)
Definition nospec_mask (w : positive) (index bound : Z) : Z :=
  let negative_mask := Z.lor index bound in
  let toobig_mask := size_sub w (size_sub w bound index) 1 in
  let combined_mask := Z.lor negative_mask toobig_mask in
  let combined_mask :=
    size_not w combined_mask / (SIZE_MAX w - Z.shiftr (SIZE_MAX w) 1) in
  let combined_mask := size_mul w combined_mask (SIZE_MAX w) in
  combined_mask.

Definition aws_nospec_index (tc : toolchain) (w : positive)
    (index bound : Z) : Z :=
  let index := optimizer_barrier tc index in
  Z.land index (nospec_mask w index bound).

(** A call on a [struct aws_byte_cursor *] is a function from the cursor
    before the call to the returned cursor and the cursor after the call. *)
Record advance_result := mk_adv { rv : aws_byte_cursor; cursor_after : aws_byte_cursor }.

Definition aws_byte_cursor_advance (w : positive) (cursor : aws_byte_cursor)
    (n : Z) : advance_result :=
  if (len cursor >? Z.shiftr (SIZE_MAX w) 1)
     || (n >? Z.shiftr (SIZE_MAX w) 1)
     || (n >? len cursor)
  then {| rv := {| ptr := NULL; len := 0 |}; cursor_after := cursor |}
  else {| rv := {| ptr := ptr cursor; len := n |};
          cursor_after := {| ptr := ptr_add (ptr cursor) n;
                             len := size_sub w (len cursor) n |} |}.

Definition aws_byte_cursor_advance_nospec (tc : toolchain) (w : positive)
    (cursor : aws_byte_cursor) (n : Z) : advance_result :=
  if (n <=? len cursor)
     && (n <=? Z.shiftr (SIZE_MAX w) 1)
     && (len cursor <=? Z.shiftr (SIZE_MAX w) 1)
  then
    let n := aws_nospec_index tc w n (size_add w (len cursor) 1) in
    {| rv := {| ptr := ptr cursor; len := n |};
       cursor_after := {| ptr := ptr_add (ptr cursor) n;
                          len := size_sub w (len cursor) n |} |}
  else {| rv := {| ptr := NULL; len := 0 |}; cursor_after := cursor |}.

(** A caller's sequence of calls on one cursor. *)
Inductive advance_call :=
| Advance (n : Z)
| AdvanceNospec (n : Z).

Definition call_len (c : advance_call) : Z :=
  match c with Advance n => n | AdvanceNospec n => n end.

Definition run_call (tc : toolchain) (w : positive)
    (cursor : aws_byte_cursor) (c : advance_call) : advance_result :=
  match c with
  | Advance n => aws_byte_cursor_advance w cursor n
  | AdvanceNospec n => aws_byte_cursor_advance_nospec tc w cursor n
  end.

Fixpoint run_calls (tc : toolchain) (w : positive)
    (cursor : aws_byte_cursor) (cs : list advance_call) : aws_byte_cursor :=
  match cs with
  | [] => cursor
  | c :: cs' => run_calls tc w (cursor_after (run_call tc w cursor c)) cs'
  end.

(* ================================================================== *)
(** ** Atomics, GNU backend *)

(** A call either returns a value or ends the process in [abort()]. *)
Inductive outcome (A : Type) : Type :=
| Returned (a : A)
| Aborted.
Arguments Returned {A} a.
Arguments Aborted {A}.

Definition obind {A B} (m : outcome A) (k : A -> outcome B) : outcome B :=
  match m with
  | Returned a => k a
  | Aborted => Aborted
  end.

Notation "x <- m ;; k" := (obind m (fun x => k))
  (at level 61, m at next level, right associativity).

(** Modelled from the spec: [enum aws_memory_order] is declared in
    aws/common/atomics.h, which is not among the sources.  The spec gives
    a closed enumeration of five values (relaxed, acquire, release,
    acquire-release, sequentially-consistent); the integer value of each
    enumerator is a parameter.  An argument of the enumeration type is the
    integer it carries, so a caller can pass any integer. *)
Record aws_memory_order := mk_order {
  aws_memory_order_relaxed : Z;
  aws_memory_order_acquire : Z;
  aws_memory_order_release : Z;
  aws_memory_order_acq_rel : Z;
  aws_memory_order_seq_cst : Z
}.

Definition enumerators (E : aws_memory_order) : list Z :=
  [ aws_memory_order_relaxed E; aws_memory_order_acquire E;
    aws_memory_order_release E; aws_memory_order_acq_rel E;
    aws_memory_order_seq_cst E ].

(** The enumeration numbered like C11's [memory_order] with the consume
    level left out. *)
Definition c11_orders : aws_memory_order :=
  {| aws_memory_order_relaxed := 0; aws_memory_order_acquire := 2;
     aws_memory_order_release := 3; aws_memory_order_acq_rel := 4;
     aws_memory_order_seq_cst := 5 |}.

(** The compiler's predefined memory-order macros. *)
Definition ATOMIC_RELAXED : Z := 0.
Definition ATOMIC_ACQUIRE : Z := 2.
Definition ATOMIC_RELEASE : Z := 3.
Definition ATOMIC_ACQ_REL : Z := 4.
Definition ATOMIC_SEQ_CST : Z := 5.

Definition aws_atomic_priv_xlate_order (E : aws_memory_order) (order : Z)
    : outcome Z :=
  if order =? aws_memory_order_relaxed E then Returned ATOMIC_RELAXED
  else if order =? aws_memory_order_acquire E then Returned ATOMIC_ACQUIRE
  else if order =? aws_memory_order_release E then Returned ATOMIC_RELEASE
  else if order =? aws_memory_order_acq_rel E then Returned ATOMIC_ACQ_REL
  else if order =? aws_memory_order_seq_cst E then Returned ATOMIC_SEQ_CST
  else Aborted.

(** [struct aws_atomic_var]: one machine word, seen through the two
    members of the anonymous union. *)
Record aws_atomic_var := mk_var { word : Z }.

Definition intval (var : aws_atomic_var) : Z := word var.
Definition ptrval (var : aws_atomic_var) : pointer := word var.

(** *** The compiler's [__atomic] built-ins

    Their effect on the object they are applied to when no other thread
    touches it: the object before the call and the operands give the
    value returned and the object after the call.  The memory order
    constrains how other threads see the access, not the value a single
    thread reads or writes. *)

Definition atomic_load_n (obj : Z) (memorder : Z) : Z := obj.

Definition atomic_store_n (obj val : Z) (memorder : Z) : Z := val.

Definition atomic_exchange_n (obj val : Z) (memorder : Z) : Z * Z :=
  (obj, val).

(** [__atomic_compare_exchange_n] with [weak = false], the only way the
    source calls it: result, object after, [*expected] after. *)
Definition atomic_compare_exchange_n_strong (obj expected desired : Z)
    (success_memorder failure_memorder : Z) : bool * Z * Z :=
  if obj =? expected then (true, desired, expected)
  else (false, obj, obj).

Definition atomic_fetch_add (w : positive) (obj val : Z) (memorder : Z)
    : Z * Z := (obj, size_add w obj val).
Definition atomic_fetch_sub (w : positive) (obj val : Z) (memorder : Z)
    : Z * Z := (obj, size_sub w obj val).
Definition atomic_fetch_or (obj val : Z) (memorder : Z) : Z * Z :=
  (obj, Z.lor obj val).
Definition atomic_fetch_and (obj val : Z) (memorder : Z) : Z * Z :=
  (obj, Z.land obj val).
Definition atomic_fetch_xor (obj val : Z) (memorder : Z) : Z * Z :=
  (obj, Z.lxor obj val).

(** *** The wrappers of atomics_gnu.inl

    A wrapper that writes through [var] returns the variable after the
    call next to its C result. *)

Definition aws_atomic_init_int (var : aws_atomic_var) (n : Z)
    : aws_atomic_var := {| word := n |}.

Definition aws_atomic_init_ptr (var : aws_atomic_var) (p : pointer)
    : aws_atomic_var := {| word := p |}.

Definition aws_atomic_load_int_explicit (E : aws_memory_order)
    (var : aws_atomic_var) (memory_order : Z) : outcome Z :=
  mo <- aws_atomic_priv_xlate_order E memory_order ;;
  Returned (atomic_load_n (intval var) mo).

Definition aws_atomic_load_ptr_explicit (E : aws_memory_order)
    (var : aws_atomic_var) (memory_order : Z) : outcome pointer :=
  mo <- aws_atomic_priv_xlate_order E memory_order ;;
  Returned (atomic_load_n (ptrval var) mo).

Definition aws_atomic_store_int_explicit (E : aws_memory_order)
    (var : aws_atomic_var) (n : Z) (memory_order : Z)
    : outcome aws_atomic_var :=
  mo <- aws_atomic_priv_xlate_order E memory_order ;;
  Returned {| word := atomic_store_n (intval var) n mo |}.

Definition aws_atomic_store_ptr_explicit (E : aws_memory_order)
    (var : aws_atomic_var) (p : pointer) (memory_order : Z)
    : outcome aws_atomic_var :=
  mo <- aws_atomic_priv_xlate_order E memory_order ;;
  Returned {| word := atomic_store_n (ptrval var) p mo |}.

(** Lifts a built-in's (result, object after) to (result, variable after). *)
Definition on_var {A} (r : A * Z) : A * aws_atomic_var :=
  (fst r, {| word := snd r |}).

Definition aws_atomic_exchange_int_explicit (E : aws_memory_order)
    (var : aws_atomic_var) (n : Z) (memory_order : Z)
    : outcome (Z * aws_atomic_var) :=
  mo <- aws_atomic_priv_xlate_order E memory_order ;;
  Returned (on_var (atomic_exchange_n (intval var) n mo)).

Definition aws_atomic_exchange_ptr_explicit (E : aws_memory_order)
    (var : aws_atomic_var) (p : pointer) (memory_order : Z)
    : outcome (pointer * aws_atomic_var) :=
  mo <- aws_atomic_priv_xlate_order E memory_order ;;
  Returned (on_var (atomic_exchange_n (ptrval var) p mo)).

(** The result of a compare-exchange: the [bool] returned, the variable
    after the call and the caller's [*expected] after the call. *)
Record cas_result := mk_cas {
  cas_ok : bool;
  cas_var : aws_atomic_var;
  cas_expected : Z
}.

Definition cas_of (r : bool * Z * Z) : cas_result :=
  let '(ok, obj, expected) := r in
  {| cas_ok := ok; cas_var := {| word := obj |}; cas_expected := expected |}.

Definition aws_atomic_compare_exchange_int_explicit (E : aws_memory_order)
    (var : aws_atomic_var) (expected desired : Z)
    (order_success order_failure : Z) : outcome cas_result :=
  ms <- aws_atomic_priv_xlate_order E order_success ;;
  mf <- aws_atomic_priv_xlate_order E order_failure ;;
  Returned (cas_of (atomic_compare_exchange_n_strong
                      (intval var) expected desired ms mf)).

Definition aws_atomic_compare_exchange_ptr_explicit (E : aws_memory_order)
    (var : aws_atomic_var) (expected desired : pointer)
    (order_success order_failure : Z) : outcome cas_result :=
  ms <- aws_atomic_priv_xlate_order E order_success ;;
  mf <- aws_atomic_priv_xlate_order E order_failure ;;
  Returned (cas_of (atomic_compare_exchange_n_strong
                      (ptrval var) expected desired ms mf)).

Definition aws_atomic_fetch_add_explicit (E : aws_memory_order)
    (w : positive) (var : aws_atomic_var) (n : Z) (order : Z)
    : outcome (Z * aws_atomic_var) :=
  mo <- aws_atomic_priv_xlate_order E order ;;
  Returned (on_var (atomic_fetch_add w (intval var) n mo)).

Definition aws_atomic_fetch_sub_explicit (E : aws_memory_order)
    (w : positive) (var : aws_atomic_var) (n : Z) (order : Z)
    : outcome (Z * aws_atomic_var) :=
  mo <- aws_atomic_priv_xlate_order E order ;;
  Returned (on_var (atomic_fetch_sub w (intval var) n mo)).

Definition aws_atomic_fetch_or_explicit (E : aws_memory_order)
    (var : aws_atomic_var) (n : Z) (order : Z)
    : outcome (Z * aws_atomic_var) :=
  mo <- aws_atomic_priv_xlate_order E order ;;
  Returned (on_var (atomic_fetch_or (intval var) n mo)).

Definition aws_atomic_fetch_and_explicit (E : aws_memory_order)
    (var : aws_atomic_var) (n : Z) (order : Z)
    : outcome (Z * aws_atomic_var) :=
  mo <- aws_atomic_priv_xlate_order E order ;;
  Returned (on_var (atomic_fetch_and (intval var) n mo)).

Definition aws_atomic_fetch_xor_explicit (E : aws_memory_order)
    (var : aws_atomic_var) (n : Z) (order : Z)
    : outcome (Z * aws_atomic_var) :=
  mo <- aws_atomic_priv_xlate_order E order ;;
  Returned (on_var (atomic_fetch_xor (intval var) n mo)).

(* ================================================================== *)
(** ** Buffer constructors, and the views a run of calls hands out *)

Definition aws_byte_buf_from_c_str (c_str : pointer) (n : Z) : aws_byte_buf :=
  {| buffer := c_str; buf_len := n |}.

(** [&c_str[0]] is the address of the array's first element. *)
Definition aws_byte_buf_from_array (c_str : pointer) (n : Z) : aws_byte_buf :=
  {| buffer := ptr_add c_str 0; buf_len := n |}.

(** [strlen] of <string.h> on the bytes of an array: the number of bytes
    before the first zero byte.  Without a zero byte the call reads past
    the array, which C leaves undefined: no result. *)
Fixpoint strlen (chars : list Z) : option Z :=
  match chars with
  | [] => None
  | c :: rest =>
      if c =? 0 then Some 0
      else match strlen rest with
           | Some n => Some (n + 1)
           | None => None
           end
  end.

(** The literal is an array of [chars] at address [literal]. *)
Definition aws_byte_buf_from_literal (literal : pointer) (chars : list Z)
    : option aws_byte_buf :=
  match strlen chars with
  | Some n => Some {| buffer := literal; buf_len := n |}
  | None => None
  end.

(** The cursors a sequence of calls returns, in call order. *)
Fixpoint run_calls_returned (tc : toolchain) (w : positive)
    (cursor : aws_byte_cursor) (cs : list advance_call)
    : list aws_byte_cursor :=
  match cs with
  | [] => []
  | c :: cs' =>
      rv (run_call tc w cursor c)
      :: run_calls_returned tc w (cursor_after (run_call tc w cursor c)) cs'
  end.

(** The same request made through [aws_byte_cursor_advance]. *)
Definition plain_call (c : advance_call) : advance_call :=
  Advance (call_len c).

(** The number of bytes a list of returned cursors covers. *)
Definition total_len (views : list aws_byte_cursor) : Z :=
  fold_right (fun v acc => len v + acc) 0 views.

(** [__atomic_thread_fence] reads and writes no object; what a call
    fixes is the memory order it is executed with. *)
Definition atomic_thread_fence (memorder : Z) : Z := memorder.

(** [aws_atomic_thread_fence]: the memory order its fence is executed
    with.  The source passes [order] on as it is. *)
Definition aws_atomic_thread_fence (order : Z) : outcome Z :=
  Returned (atomic_thread_fence order).

(* ================================================================== *)
(** ** Facts about [size_t] arithmetic *)

(** Bitwise OR of two values below a power of two stays below it. *)
Lemma lor_below n a b :
  0 <= n -> 0 <= a < 2 ^ n -> 0 <= b < 2 ^ n -> 0 <= Z.lor a b < 2 ^ n.
Proof.
  intros Hn Ha Hb. split.
  - apply Z.lor_nonneg. lia.
  - destruct (Z.eq_dec a 0) as [-> | Ha0]; [rewrite Z.lor_0_l; lia |].
    destruct (Z.eq_dec b 0) as [-> | Hb0]; [rewrite Z.lor_0_r; lia |].
    assert (Hl : 0 < Z.lor a b).
    { assert (0 <= Z.lor a b) by (apply Z.lor_nonneg; lia).
      assert (Z.lor a b <> 0) by (rewrite Z.lor_eq_0_iff; lia). lia. }
    apply Z.log2_lt_pow2; [exact Hl |].
    rewrite Z.log2_lor by lia.
    apply Z.max_lub_lt; apply Z.log2_lt_pow2; lia.
Qed.

(** Bitwise OR keeps a bit that one operand has. *)
Lemma lor_above_l n a b :
  0 <= n -> 0 <= a -> 0 <= b -> 2 ^ n <= a -> 2 ^ n <= Z.lor a b.
Proof.
  intros Hn Ha Hb Hge.
  assert (0 < 2 ^ n) by (apply Z.pow_pos_nonneg; lia).
  assert (Hl : 0 < Z.lor a b).
  { assert (0 <= Z.lor a b) by (apply Z.lor_nonneg; lia).
    assert (Z.lor a b <> 0) by (rewrite Z.lor_eq_0_iff; lia). lia. }
  apply Z.log2_le_pow2; [exact Hl |].
  rewrite Z.log2_lor by lia.
  apply Z.le_trans with (Z.log2 a); [| apply Z.le_max_l].
  apply Z.log2_le_pow2; lia.
Qed.

Lemma lor_above_r n a b :
  0 <= n -> 0 <= a -> 0 <= b -> 2 ^ n <= b -> 2 ^ n <= Z.lor a b.
Proof. intros. rewrite Z.lor_comm. apply lor_above_l; assumption. Qed.

Section SizeFacts.

Variable w : positive.

Lemma pow2_width : 2 ^ Z.pos w = 2 * top_bit w.
Proof.
  unfold top_bit.
  replace (Z.pos w) with (Z.succ (Z.pos w - 1)) at 1 by lia.
  rewrite Z.pow_succ_r by lia. reflexivity.
Qed.

Lemma half_pos : 0 < top_bit w.
Proof. unfold top_bit. apply Z.pow_pos_nonneg; lia. Qed.

Lemma SIZE_MAX_eq : SIZE_MAX w = 2 * top_bit w - 1.
Proof. unfold SIZE_MAX. rewrite pow2_width. reflexivity. Qed.

Lemma SIZE_MAX_shiftr : Z.shiftr (SIZE_MAX w) 1 = top_bit w - 1.
Proof.
  rewrite Z.shiftr_div_pow2 by lia. rewrite SIZE_MAX_eq.
  change (2 ^ 1) with 2. pose proof half_pos.
  symmetry. apply Z.div_unique with (r := 1); lia.
Qed.

Lemma top_bit_constant : SIZE_MAX w - Z.shiftr (SIZE_MAX w) 1 = top_bit w.
Proof. rewrite SIZE_MAX_shiftr, SIZE_MAX_eq. lia. Qed.

Lemma size_wrap_small x : is_size_t w x -> size_wrap w x = x.
Proof.
  unfold is_size_t, size_wrap, SIZE_MAX. intros Hx.
  apply Z.mod_small. lia.
Qed.

Lemma size_wrap_range x : is_size_t w (size_wrap w x).
Proof.
  unfold is_size_t, size_wrap, SIZE_MAX.
  pose proof (Z.mod_pos_bound x (2 ^ Z.pos w)) as Hb.
  assert (0 < 2 ^ Z.pos w) by (apply Z.pow_pos_nonneg; lia). lia.
Qed.

(** Wrap-around of a value one period below the range. *)
Lemma size_wrap_neg x :
  - 2 ^ Z.pos w <= x < 0 -> size_wrap w x = x + 2 ^ Z.pos w.
Proof.
  intros Hx. unfold size_wrap. symmetry.
  apply Z.mod_unique_pos with (q := -1); lia.
Qed.

Lemma size_not_small x : is_size_t w x -> size_not w x = SIZE_MAX w - x.
Proof.
  unfold is_size_t, size_not, SIZE_MAX. intros Hx.
  unfold Z.lnot. rewrite <- Z.sub_1_r.
  destruct (Z.eq_dec x (2 ^ Z.pos w - 1)) as [-> | Hne].
  - rewrite size_wrap_neg by lia. lia.
  - rewrite size_wrap_neg by lia. lia.
Qed.

Lemma land_SIZE_MAX x : is_size_t w x -> Z.land x (SIZE_MAX w) = x.
Proof.
  unfold is_size_t, SIZE_MAX. intros Hx.
  rewrite Z.sub_1_r, <- Z.ones_equiv, Z.land_ones by lia.
  apply Z.mod_small. lia.
Qed.

End SizeFacts.

(* ================================================================== *)
(** ** The index clamp *)

(** Neither form of the barrier changes the value of the index. *)
Lemma optimizer_barrier_id tc index : optimizer_barrier tc index = index.
Proof.
  unfold optimizer_barrier, asm_volatile_barrier, volatile_byte_add.
  destruct (defined_GNUC_or_clang tc), (defined_MSVC_LANG tc);
    try reflexivity;
    rewrite Z.add_0_r, Z.mod_mod by lia; lia.
Qed.

Section NospecIndex.

Variable w : positive.

Lemma is_size_t_bounds x :
  is_size_t w x <-> 0 <= x < 2 * top_bit w.
Proof. unfold is_size_t. rewrite SIZE_MAX_eq. lia. Qed.

(** The two wrapping subtractions of [toobig_mask] amount to one. *)
Lemma toobig_mask_eq index bound :
  size_sub w (size_sub w bound index) 1 = size_wrap w (bound - index - 1).
Proof. unfold size_sub, size_wrap. apply Zminus_mod_idemp_l. Qed.

(** The sign bit of [combined_mask] is off exactly when the index is in
    range and neither argument has its own sign bit set. *)
Lemma combined_mask_range index bound :
  is_size_t w index -> is_size_t w bound ->
  let c := Z.lor (Z.lor index bound)
                 (size_sub w (size_sub w bound index) 1) in
  is_size_t w c /\
  (c < top_bit w <-> index < bound /\ bound < top_bit w).
Proof.
  intros Hi Hb c. subst c. rewrite toobig_mask_eq.
  pose proof (half_pos w) as Hh.
  pose proof (size_wrap_range w (bound - index - 1)) as Ht.
  rewrite is_size_t_bounds in Hi, Hb, Ht.
  assert (Hw : 2 * top_bit w = 2 ^ Z.pos w) by (symmetry; apply pow2_width).
  assert (Hn : 0 <= Z.lor index bound < 2 ^ Z.pos w)
    by (apply lor_below; lia).
  split.
  - rewrite is_size_t_bounds, Hw. apply lor_below; lia.
  - unfold top_bit in *. split.
    + intros Hc.
      destruct (Z_lt_le_dec bound (2 ^ (Z.pos w - 1))) as [Hbs | Hbb].
      * destruct (Z_lt_le_dec index bound) as [Hlt | Hge]; [lia |].
        exfalso.
        destruct (Z_lt_le_dec index (2 ^ (Z.pos w - 1))) as [His | Hib].
        2:{ assert (2 ^ (Z.pos w - 1) <= Z.lor index bound)
              by (apply lor_above_l; lia).
            assert (2 ^ (Z.pos w - 1)
                    <= Z.lor (Z.lor index bound)
                             (size_wrap w (bound - index - 1)))
              by (apply lor_above_l; lia).
            lia. }
        assert (2 ^ (Z.pos w - 1) <= size_wrap w (bound - index - 1)).
        { rewrite size_wrap_neg by lia. lia. }
        assert (2 ^ (Z.pos w - 1)
                <= Z.lor (Z.lor index bound)
                         (size_wrap w (bound - index - 1)))
          by (apply lor_above_r; lia).
        lia.
      * exfalso.
        assert (2 ^ (Z.pos w - 1) <= Z.lor index bound)
          by (apply lor_above_r; lia).
        assert (2 ^ (Z.pos w - 1)
                <= Z.lor (Z.lor index bound)
                         (size_wrap w (bound - index - 1)))
          by (apply lor_above_l; lia).
        lia.
    + intros [Hlt Hbs].
      rewrite size_wrap_small by (rewrite is_size_t_bounds; unfold top_bit; lia).
      apply lor_below; [lia | apply lor_below; lia | lia].
Qed.

(** The mask is all-ones when the index is in range and both arguments
    are at most [SIZE_MAX >> 1], and all-zeros otherwise. *)
Lemma nospec_mask_spec index bound :
  is_size_t w index -> is_size_t w bound ->
  nospec_mask w index bound =
    if (index <? bound) && (bound <=? Z.shiftr (SIZE_MAX w) 1)
    then SIZE_MAX w else 0.
Proof.
  intros Hi Hb. unfold nospec_mask.
  destruct (combined_mask_range index bound Hi Hb) as [Hc Hiff].
  cbv zeta in Hc, Hiff |- *.
  set (c := Z.lor (Z.lor index bound)
                  (size_sub w (size_sub w bound index) 1)) in *.
  rewrite size_not_small by exact Hc.
  rewrite top_bit_constant, SIZE_MAX_shiftr.
  pose proof (half_pos w) as Hh.
  rewrite is_size_t_bounds in Hc.
  rewrite SIZE_MAX_eq.
  destruct (Z_lt_le_dec c (top_bit w)) as [Hsmall | Hbig].
  - apply Hiff in Hsmall. destruct Hsmall as [Hlt Hbs].
    replace (index <? bound) with true by (symmetry; apply Z.ltb_lt; lia).
    replace (bound <=? top_bit w - 1) with true
      by (symmetry; apply Z.leb_le; lia).
    cbn [andb].
    replace ((2 * top_bit w - 1 - c) / top_bit w) with 1
      by (apply Z.div_unique with (r := top_bit w - 1 - c); lia).
    unfold size_mul. rewrite Z.mul_1_l.
    rewrite <- SIZE_MAX_eq. apply size_wrap_small.
    rewrite is_size_t_bounds, SIZE_MAX_eq. lia.
  - replace ((2 * top_bit w - 1 - c) / top_bit w) with 0
      by (symmetry; apply Z.div_small; lia).
    unfold size_mul. rewrite Z.mul_0_l.
    rewrite size_wrap_small by (rewrite is_size_t_bounds; lia).
    destruct (index <? bound) eqn:E1; [| reflexivity].
    destruct (bound <=? top_bit w - 1) eqn:E2; [| reflexivity].
    apply Z.ltb_lt in E1. apply Z.leb_le in E2.
    assert (c < top_bit w) by (apply Hiff; lia). lia.
Qed.

Lemma aws_nospec_index_spec tc index bound :
  is_size_t w index -> is_size_t w bound ->
  aws_nospec_index tc w index bound =
    if (index <? bound) && (bound <=? Z.shiftr (SIZE_MAX w) 1)
    then index else 0.
Proof.
  intros Hi Hb. unfold aws_nospec_index. rewrite optimizer_barrier_id.
  rewrite nospec_mask_spec by assumption.
  destruct ((index <? bound) && (bound <=? Z.shiftr (SIZE_MAX w) 1)).
  - apply land_SIZE_MAX. exact Hi.
  - apply Z.land_0_r.
Qed.

End NospecIndex.

(* ================================================================== *)
(** ** Contract of the index clamp *)

Section Clamp.

Variables (tc : toolchain) (w : positive).

Lemma SIZE_MAX_half : SIZE_MAX w / 2 = Z.shiftr (SIZE_MAX w) 1.
Proof. rewrite Z.shiftr_div_pow2 by lia. reflexivity. Qed.

(** C3. For size_t values i and b, [aws_nospec_index] returns i when
    0 <= i < b and b <= SIZE_MAX/2, and returns 0 when i >= b, or
    i > SIZE_MAX/2, or b > SIZE_MAX/2; for bound 10 and index 10 it
    returns 0. *)
Theorem nospec_index_in_range_or_zero (i b : Z) :
  is_size_t w i -> is_size_t w b ->
  (0 <= i < b -> b <= SIZE_MAX w / 2 -> aws_nospec_index tc w i b = i) /\
  (i >= b \/ i > SIZE_MAX w / 2 \/ b > SIZE_MAX w / 2 ->
     aws_nospec_index tc w i b = 0) /\
  (is_size_t w 10 -> aws_nospec_index tc w 10 10 = 0).
Proof.
  intros Hi Hb. rewrite SIZE_MAX_half.
  split; [| split].
  - intros Hlt Hle. rewrite aws_nospec_index_spec by assumption.
    replace (i <? b) with true by (symmetry; apply Z.ltb_lt; lia).
    replace (b <=? Z.shiftr (SIZE_MAX w) 1) with true
      by (symmetry; apply Z.leb_le; lia).
    reflexivity.
  - intros Hout. rewrite aws_nospec_index_spec by assumption.
    destruct (i <? b) eqn:E1; [| reflexivity].
    destruct (b <=? Z.shiftr (SIZE_MAX w) 1) eqn:E2; [| reflexivity].
    apply Z.ltb_lt in E1. apply Z.leb_le in E2. lia.
  - intros H10. rewrite aws_nospec_index_spec by assumption.
    rewrite Z.ltb_irrefl. reflexivity.
Qed.

(** C10. For size_t inputs the mask is all-zeros or all-ones, so the
    value [aws_nospec_index] returns is 0 or the index and nothing
    else; when it is not 0 the index is below the bound and both are
    at most SIZE_MAX/2. *)
Theorem nospec_index_zero_or_index (index bound : Z) :
  is_size_t w index -> is_size_t w bound ->
  (nospec_mask w index bound = 0 \/
   nospec_mask w index bound = SIZE_MAX w) /\
  aws_nospec_index tc w index bound =
    Z.land index (nospec_mask w index bound) /\
  (aws_nospec_index tc w index bound = 0 \/
   aws_nospec_index tc w index bound = index) /\
  (aws_nospec_index tc w index bound <> 0 ->
     index < bound /\
     index <= SIZE_MAX w / 2 /\ bound <= SIZE_MAX w / 2).
Proof.
  intros Hi Hb.
  pose proof (nospec_mask_spec w index bound Hi Hb) as Hm.
  pose proof (aws_nospec_index_spec w tc index bound Hi Hb) as Hr.
  rewrite SIZE_MAX_half.
  destruct (index <? bound) eqn:E1;
    destruct (bound <=? Z.shiftr (SIZE_MAX w) 1) eqn:E2;
    cbn [andb] in Hm, Hr.
  all: (split; [| split; [| split]]);
    [ auto
    | unfold aws_nospec_index; rewrite optimizer_barrier_id; reflexivity
    | auto
    | intros Hnz ].
  all: try (exfalso; apply Hnz; exact Hr).
  apply Z.ltb_lt in E1. apply Z.leb_le in E2. lia.
Qed.

End Clamp.

Lemma nospec_index_in_range_or_zero_witness :
  aws_nospec_index gnu_toolchain 64 9 10 = 9 /\
  aws_nospec_index gnu_toolchain 64 10 10 = 0 /\
  aws_nospec_index gnu_toolchain 64 12 10 = 0.
Proof.
  assert (R9 : is_size_t 64 9) by (vm_compute; split; discriminate).
  assert (R10 : is_size_t 64 10) by (vm_compute; split; discriminate).
  assert (R12 : is_size_t 64 12) by (vm_compute; split; discriminate).
  destruct (nospec_index_in_range_or_zero gnu_toolchain 64 9 10 R9 R10)
    as [Hin [_ Hten]].
  destruct (nospec_index_in_range_or_zero gnu_toolchain 64 12 10 R12 R10)
    as [_ [Hout _]].
  split; [| split].
  - apply Hin; [lia | vm_compute; discriminate].
  - apply Hten. exact R10.
  - apply Hout. left. lia.
Defined.

Lemma nospec_index_zero_or_index_witness :
  aws_nospec_index msvc_toolchain 32 7 8 <> 0 /\
  7 < 8 /\ 7 <= SIZE_MAX 32 / 2 /\ 8 <= SIZE_MAX 32 / 2.
Proof.
  assert (R7 : is_size_t 32 7) by (vm_compute; split; discriminate).
  assert (R8 : is_size_t 32 8) by (vm_compute; split; discriminate).
  assert (Hnz : aws_nospec_index msvc_toolchain 32 7 8 <> 0)
    by (vm_compute; discriminate).
  split; [exact Hnz |].
  exact (proj2 (proj2 (proj2
    (nospec_index_zero_or_index msvc_toolchain 32 7 8 R7 R8))) Hnz).
Defined.

(* ================================================================== *)
(** ** Advancing a cursor *)

Section Advance.

Variables (tc : toolchain) (w : positive).

Lemma size_sub_le a b :
  is_size_t w a -> 0 <= b <= a -> size_sub w a b = a - b.
Proof.
  intros Ha Hb. unfold size_sub. apply size_wrap_small.
  unfold is_size_t in *. lia.
Qed.

(** The failure branch: the guard of the source holds. *)
Lemma advance_fails cursor n :
  n > len cursor \/ n > SIZE_MAX w / 2 \/ len cursor > SIZE_MAX w / 2 ->
  aws_byte_cursor_advance w cursor n =
    {| rv := empty_cursor; cursor_after := cursor |}.
Proof.
  rewrite SIZE_MAX_half. intros Hg. unfold aws_byte_cursor_advance.
  destruct (len cursor >? Z.shiftr (SIZE_MAX w) 1) eqn:E1;
    [reflexivity |].
  destruct (n >? Z.shiftr (SIZE_MAX w) 1) eqn:E2; [reflexivity |].
  destruct (n >? len cursor) eqn:E3; [reflexivity |].
  rewrite Z.gtb_ltb, Z.ltb_ge in E1, E2, E3. lia.
Qed.

(** The success branch. *)
Lemma advance_succeeds cursor n :
  is_size_t w (len cursor) -> 0 <= n ->
  n <= len cursor -> n <= SIZE_MAX w / 2 -> len cursor <= SIZE_MAX w / 2 ->
  aws_byte_cursor_advance w cursor n =
    {| rv := {| ptr := ptr cursor; len := n |};
       cursor_after := {| ptr := ptr cursor + n; len := len cursor - n |} |}.
Proof.
  rewrite SIZE_MAX_half. intros HR Hn H1 H2 H3.
  unfold aws_byte_cursor_advance, ptr_add.
  replace (len cursor >? Z.shiftr (SIZE_MAX w) 1) with false
    by (symmetry; rewrite Z.gtb_ltb; apply Z.ltb_ge; lia).
  replace (n >? Z.shiftr (SIZE_MAX w) 1) with false
    by (symmetry; rewrite Z.gtb_ltb; apply Z.ltb_ge; lia).
  replace (n >? len cursor) with false
    by (symmetry; rewrite Z.gtb_ltb; apply Z.ltb_ge; lia).
  cbn [orb]. rewrite size_sub_le by (assumption || lia). reflexivity.
Qed.

(** C1. For a cursor (p, R) and a requested length len: if len exceeds
    R, or len or R exceeds SIZE_MAX/2, [aws_byte_cursor_advance]
    returns the empty cursor and leaves (p, R) as it is; otherwise it
    returns (p, len) and the cursor becomes (p + len, R - len). *)
Theorem advance_contract (p R n : Z) :
  is_size_t w R -> is_size_t w n ->
  (n > R \/ n > SIZE_MAX w / 2 \/ R > SIZE_MAX w / 2 ->
     aws_byte_cursor_advance w {| ptr := p; len := R |} n =
       {| rv := {| ptr := NULL; len := 0 |};
          cursor_after := {| ptr := p; len := R |} |}) /\
  (~ (n > R \/ n > SIZE_MAX w / 2 \/ R > SIZE_MAX w / 2) ->
     aws_byte_cursor_advance w {| ptr := p; len := R |} n =
       {| rv := {| ptr := p; len := n |};
          cursor_after := {| ptr := p + n; len := R - n |} |}).
Proof.
  intros HR Hn. split.
  - intros Hg. apply advance_fails. exact Hg.
  - intros Hg.
    apply (advance_succeeds {| ptr := p; len := R |} n);
      cbn [len]; unfold is_size_t in *; lia.
Qed.

End Advance.

Lemma advance_contract_witness :
  aws_byte_cursor_advance 64 {| ptr := 4096; len := 11 |} 12 =
    {| rv := {| ptr := NULL; len := 0 |};
       cursor_after := {| ptr := 4096; len := 11 |} |} /\
  aws_byte_cursor_advance 64 {| ptr := 4096; len := 11 |} 5 =
    {| rv := {| ptr := 4096; len := 5 |};
       cursor_after := {| ptr := 4096 + 5; len := 11 - 5 |} |}.
Proof.
  assert (R5 : is_size_t 64 5) by (vm_compute; split; discriminate).
  assert (R11 : is_size_t 64 11) by (vm_compute; split; discriminate).
  assert (R12 : is_size_t 64 12) by (vm_compute; split; discriminate).
  split.
  - apply (proj1 (advance_contract 64 4096 11 12 R11 R12)). left. lia.
  - apply (proj2 (advance_contract 64 4096 11 5 R11 R5)).
    intros [H | [H | H]]; [lia | revert H | revert H]; vm_compute;
      intros H; discriminate H.
Defined.

(** The scenario of the spec: an 11-byte view consumed by requests for 5
    and 6 bytes, and a third request that finds nothing left. *)
Example advance_hello_world :
  let c0 := aws_byte_cursor_from_buf {| buffer := 4096; buf_len := 11 |} in
  let r1 := aws_byte_cursor_advance 64 c0 5 in
  let r2 := aws_byte_cursor_advance 64 (cursor_after r1) 6 in
  let r3 := aws_byte_cursor_advance 64 (cursor_after r2) 1 in
  rv r1 = {| ptr := 4096; len := 5 |} /\
  cursor_after r1 = {| ptr := 4101; len := 6 |} /\
  rv r2 = {| ptr := 4101; len := 6 |} /\
  cursor_after r2 = {| ptr := 4107; len := 0 |} /\
  rv r3 = empty_cursor /\
  cursor_after r3 = {| ptr := 4107; len := 0 |}.
Proof. vm_compute. repeat split. Qed.

(* ================================================================== *)
(** ** The speculation-safe advance *)

Section AdvanceNospec.

Variables (tc : toolchain) (w : positive).

Lemma advance_nospec_fails cursor n :
  n > len cursor \/ n > SIZE_MAX w / 2 \/ len cursor > SIZE_MAX w / 2 ->
  aws_byte_cursor_advance_nospec tc w cursor n =
    {| rv := empty_cursor; cursor_after := cursor |}.
Proof.
  rewrite SIZE_MAX_half. intros Hg. unfold aws_byte_cursor_advance_nospec.
  destruct (n <=? len cursor) eqn:E1; [| reflexivity].
  destruct (n <=? Z.shiftr (SIZE_MAX w) 1) eqn:E2; [| reflexivity].
  destruct (len cursor <=? Z.shiftr (SIZE_MAX w) 1) eqn:E3; [| reflexivity].
  apply Z.leb_le in E1, E2, E3. lia.
Qed.

(** The length the clamp lets through on the success branch: the bound
    [cursor->len + 1] passes the clamp's own test unless the remaining
    length is exactly [SIZE_MAX >> 1]. *)
Lemma advance_nospec_clamped R n :
  is_size_t w R -> 0 <= n ->
  n <= R -> R <= SIZE_MAX w / 2 ->
  aws_nospec_index tc w n (size_add w R 1) =
    if R <? Z.shiftr (SIZE_MAX w) 1 then n else 0.
Proof.
  rewrite SIZE_MAX_half. intros HR Hn H1 H3.
  pose proof (half_pos w) as Hh.
  assert (Hb : size_add w R 1 = R + 1).
  { unfold size_add. apply size_wrap_small.
    rewrite is_size_t_bounds. rewrite SIZE_MAX_shiftr in H3.
    unfold is_size_t in HR. lia. }
  rewrite Hb.
  rewrite aws_nospec_index_spec.
  - replace (n <? R + 1) with true by (symmetry; apply Z.ltb_lt; lia).
    cbn [andb].
    destruct (R <? Z.shiftr (SIZE_MAX w) 1) eqn:E.
    + apply Z.ltb_lt in E.
      replace (R + 1 <=? Z.shiftr (SIZE_MAX w) 1) with true
        by (symmetry; apply Z.leb_le; lia).
      reflexivity.
    + apply Z.ltb_ge in E.
      replace (R + 1 <=? Z.shiftr (SIZE_MAX w) 1) with false
        by (symmetry; apply Z.leb_gt; lia).
      reflexivity.
  - unfold is_size_t in *. lia.
  - rewrite is_size_t_bounds. rewrite SIZE_MAX_shiftr in H3.
    unfold is_size_t in HR. lia.
Qed.

Lemma advance_nospec_succeeds cursor n :
  is_size_t w (len cursor) -> 0 <= n ->
  n <= len cursor -> n <= SIZE_MAX w / 2 -> len cursor <= SIZE_MAX w / 2 ->
  let k := if len cursor <? Z.shiftr (SIZE_MAX w) 1 then n else 0 in
  aws_byte_cursor_advance_nospec tc w cursor n =
    {| rv := {| ptr := ptr cursor; len := k |};
       cursor_after := {| ptr := ptr cursor + k; len := len cursor - k |} |}.
Proof.
  intros HR Hn H1 H2 H3 k.
  unfold aws_byte_cursor_advance_nospec, ptr_add.
  rewrite advance_nospec_clamped by assumption. fold k.
  rewrite SIZE_MAX_half in H2, H3.
  replace (n <=? len cursor) with true by (symmetry; apply Z.leb_le; lia).
  replace (n <=? Z.shiftr (SIZE_MAX w) 1) with true
    by (symmetry; apply Z.leb_le; lia).
  replace (len cursor <=? Z.shiftr (SIZE_MAX w) 1) with true
    by (symmetry; apply Z.leb_le; lia).
  cbn [andb].
  assert (Hk : 0 <= k <= len cursor)
    by (subst k; destruct (len cursor <? _); lia).
  rewrite size_sub_le by assumption. reflexivity.
Qed.

(** Away from the one remaining length [SIZE_MAX >> 1], and for a
    request of no bytes, the two functions agree. *)
Lemma advance_nospec_agrees cursor n :
  is_size_t w (len cursor) -> is_size_t w n ->
  len cursor <> Z.shiftr (SIZE_MAX w) 1 \/ n = 0 ->
  aws_byte_cursor_advance_nospec tc w cursor n =
    aws_byte_cursor_advance w cursor n.
Proof.
  intros HR Hn Hne.
  destruct (Z_gt_le_dec n (len cursor)) as [G1 | L1];
    [rewrite advance_fails, advance_nospec_fails by lia; reflexivity |].
  destruct (Z_gt_le_dec n (SIZE_MAX w / 2)) as [G2 | L2];
    [rewrite advance_fails, advance_nospec_fails by lia; reflexivity |].
  destruct (Z_gt_le_dec (len cursor) (SIZE_MAX w / 2)) as [G3 | L3];
    [rewrite advance_fails, advance_nospec_fails by lia; reflexivity |].
  assert (0 <= n) by (unfold is_size_t in Hn; lia).
  rewrite advance_succeeds, advance_nospec_succeeds by assumption.
  cbv zeta. rewrite SIZE_MAX_half in L3.
  destruct (len cursor <? Z.shiftr (SIZE_MAX w) 1) eqn:E; [reflexivity |].
  apply Z.ltb_ge in E.
  destruct Hne as [Hne | ->]; [lia | reflexivity].
Qed.

(** At remaining length [SIZE_MAX >> 1] a request for one byte or more
    that [aws_byte_cursor_advance] grants yields a zero-length cursor
    and no movement. *)
Lemma advance_nospec_differs cursor n :
  len cursor = Z.shiftr (SIZE_MAX w) 1 -> 0 < n <= len cursor ->
  aws_byte_cursor_advance w cursor n =
    {| rv := {| ptr := ptr cursor; len := n |};
       cursor_after := {| ptr := ptr cursor + n;
                          len := len cursor - n |} |} /\
  aws_byte_cursor_advance_nospec tc w cursor n =
    {| rv := {| ptr := ptr cursor; len := 0 |};
       cursor_after := {| ptr := ptr cursor + 0;
                          len := len cursor - 0 |} |}.
Proof.
  intros HR Hn.
  assert (Hs : is_size_t w (len cursor)).
  { rewrite is_size_t_bounds. rewrite HR in *. rewrite SIZE_MAX_shiftr in *.
    lia. }
  split.
  - apply advance_succeeds; rewrite ?SIZE_MAX_half; assumption || lia.
  - rewrite advance_nospec_succeeds
      by (rewrite ?SIZE_MAX_half; assumption || lia).
    cbv zeta. rewrite HR, Z.ltb_irrefl. reflexivity.
Qed.

End AdvanceNospec.

(** C2. [aws_byte_cursor_advance_nospec] is documented to behave
    identically to [aws_byte_cursor_advance]: same returned cursor, same
    cursor afterwards.  On a 64-bit and on a 32-bit [size_t], with
    SIZE_MAX/2 bytes remaining and one byte requested, the first returns
    one byte and moves the cursor, the second returns a zero-length
    cursor and does not move it. *)
Theorem advance_nospec_output_at_half_range :
  aws_byte_cursor_advance 64 {| ptr := 4096; len := 2 ^ 63 - 1 |} 1 =
    {| rv := {| ptr := 4096; len := 1 |};
       cursor_after := {| ptr := 4097; len := 2 ^ 63 - 2 |} |} /\
  aws_byte_cursor_advance_nospec gnu_toolchain 64
    {| ptr := 4096; len := 2 ^ 63 - 1 |} 1 =
    {| rv := {| ptr := 4096; len := 0 |};
       cursor_after := {| ptr := 4096; len := 2 ^ 63 - 1 |} |} /\
  aws_byte_cursor_advance 32 {| ptr := 4096; len := 2 ^ 31 - 1 |} 1 =
    {| rv := {| ptr := 4096; len := 1 |};
       cursor_after := {| ptr := 4097; len := 2 ^ 31 - 2 |} |} /\
  aws_byte_cursor_advance_nospec gnu_toolchain 32
    {| ptr := 4096; len := 2 ^ 31 - 1 |} 1 =
    {| rv := {| ptr := 4096; len := 0 |};
       cursor_after := {| ptr := 4096; len := 2 ^ 31 - 1 |} |}.
Proof. vm_compute. repeat split. Qed.

(* ================================================================== *)
(** ** The lifetime of a cursor *)

Section CursorLifetime.

Variables (tc : toolchain) (w : positive).

(** What one call does to an in-range cursor: it fails and changes
    nothing, or it hands out [len (rv r)] bytes at the current position
    and moves the cursor by as many. *)
Lemma run_call_step cursor c :
  is_size_t w (len cursor) -> is_size_t w (call_len c) ->
  let r := run_call tc w cursor c in
  (rv r = empty_cursor /\ cursor_after r = cursor) \/
  (ptr (rv r) = ptr cursor /\
   0 <= len (rv r) <= call_len c /\ len (rv r) <= len cursor /\
   ptr (cursor_after r) = ptr cursor + len (rv r) /\
   len (cursor_after r) = len cursor - len (rv r)).
Proof.
  intros HR Hn r. subst r.
  assert (Hn0 : 0 <= call_len c) by (unfold is_size_t in Hn; lia).
  destruct (Z_gt_le_dec (call_len c) (len cursor)) as [G1 | L1];
    [left; destruct c; cbn [run_call call_len] in *;
     rewrite ?advance_fails, ?advance_nospec_fails by lia; auto |].
  destruct (Z_gt_le_dec (call_len c) (SIZE_MAX w / 2)) as [G2 | L2];
    [left; destruct c; cbn [run_call call_len] in *;
     rewrite ?advance_fails, ?advance_nospec_fails by lia; auto |].
  destruct (Z_gt_le_dec (len cursor) (SIZE_MAX w / 2)) as [G3 | L3];
    [left; destruct c; cbn [run_call call_len] in *;
     rewrite ?advance_fails, ?advance_nospec_fails by lia; auto |].
  right. destruct c as [n | n]; cbn [run_call call_len] in *.
  - rewrite advance_succeeds by assumption.
    cbn [rv cursor_after ptr len]. lia.
  - rewrite advance_nospec_succeeds by assumption.
    cbv zeta. cbn [rv cursor_after ptr len].
    destruct (len cursor <? Z.shiftr (SIZE_MAX w) 1); lia.
Qed.

Lemma run_calls_app cursor cs1 cs2 :
  run_calls tc w cursor (cs1 ++ cs2) =
  run_calls tc w (run_calls tc w cursor cs1) cs2.
Proof.
  revert cursor. induction cs1 as [| c cs1 IH]; intros cursor.
  - reflexivity.
  - cbn [app run_calls]. apply IH.
Qed.

(** Over any sequence of calls the remaining length does not grow, the
    pointer does not move back, and the end of the view stays put. *)
Lemma run_calls_forward cs : forall cursor,
  is_size_t w (len cursor) ->
  Forall (fun c => is_size_t w (call_len c)) cs ->
  is_size_t w (len (run_calls tc w cursor cs)) /\
  len (run_calls tc w cursor cs) <= len cursor /\
  ptr cursor <= ptr (run_calls tc w cursor cs) /\
  ptr (run_calls tc w cursor cs) + len (run_calls tc w cursor cs)
    = ptr cursor + len cursor.
Proof.
  induction cs as [| c cs IH]; intros cursor HR Hcs.
  - cbn [run_calls]. split; [exact HR | lia].
  - inversion Hcs as [| c' cs' Hc Hcs' ]; subst.
    cbn [run_calls].
    pose proof (run_call_step cursor c HR Hc) as Hstep. cbv zeta in Hstep.
    set (r := run_call tc w cursor c) in *.
    assert (Hafter : is_size_t w (len (cursor_after r)) /\
                     len (cursor_after r) <= len cursor /\
                     ptr cursor <= ptr (cursor_after r) /\
                     ptr (cursor_after r) + len (cursor_after r)
                       = ptr cursor + len cursor).
    { destruct Hstep as [[_ ->] | (_ & Hk & Hle & Hp & Hl)].
      - split; [exact HR | lia].
      - rewrite Hp, Hl. unfold is_size_t in *. lia. }
    destruct Hafter as (HR' & Hl' & Hp' & He').
    destruct (IH (cursor_after r) HR' Hcs') as (HR2 & Hl2 & Hp2 & He2).
    split; [exact HR2 | lia].
Qed.

(** C4. At any point of any sequence of [aws_byte_cursor_advance] and
    [aws_byte_cursor_advance_nospec] calls on a cursor: the call either
    fails and leaves the cursor as it is, or moves the pointer forward
    by the number of bytes it hands out and lowers the remaining length
    by the same number; the remaining length never grows and pointer
    plus remaining length never grows over the whole sequence; and
    with 0 bytes remaining a call asking for more than 0 bytes fails. *)
Theorem cursor_only_moves_forward cursor cs1 c cs2 :
  is_size_t w (len cursor) ->
  Forall (fun c => is_size_t w (call_len c)) (cs1 ++ c :: cs2) ->
  let before := run_calls tc w cursor cs1 in
  let r := run_call tc w before c in
  let final := run_calls tc w cursor (cs1 ++ c :: cs2) in
  ((rv r = empty_cursor /\ cursor_after r = before) \/
   (ptr (rv r) = ptr before /\
    0 <= len (rv r) <= call_len c /\ len (rv r) <= len before /\
    ptr (cursor_after r) = ptr before + len (rv r) /\
    len (cursor_after r) = len before - len (rv r))) /\
  (0 <= len final <= len (cursor_after r) /\
   len (cursor_after r) <= len before <= len cursor) /\
  (ptr cursor <= ptr before <= ptr (cursor_after r) /\
   ptr (cursor_after r) <= ptr final) /\
  (ptr final + len final <= ptr (cursor_after r) + len (cursor_after r) /\
   ptr (cursor_after r) + len (cursor_after r) <= ptr before + len before /\
   ptr before + len before <= ptr cursor + len cursor) /\
  (len before = 0 -> call_len c > 0 ->
   rv r = empty_cursor /\ cursor_after r = before).
Proof.
  intros HR Hall before r final.
  apply Forall_app in Hall. destruct Hall as [H1 Hall].
  inversion Hall as [| c' cs' Hc H2]; subst c' cs'.
  destruct (run_calls_forward cs1 cursor HR H1) as (HRb & Hlb & Hpb & Heb).
  fold before in HRb, Hlb, Hpb, Heb.
  pose proof (run_call_step before c HRb Hc) as Hstep.
  cbv zeta in Hstep. fold r in Hstep.
  assert (Hafter : is_size_t w (len (cursor_after r)) /\
                   len (cursor_after r) <= len before /\
                   ptr before <= ptr (cursor_after r) /\
                   ptr (cursor_after r) + len (cursor_after r)
                     = ptr before + len before).
  { destruct Hstep as [[_ ->] | (_ & Hk & Hle & Hp & Hl)].
    - split; [exact HRb | lia].
    - rewrite Hp, Hl. unfold is_size_t in *. lia. }
  destruct Hafter as (HRa & Hla & Hpa & Hea).
  assert (Hfinal : final = run_calls tc w (cursor_after r) cs2).
  { subst final. rewrite run_calls_app. reflexivity. }
  destruct (run_calls_forward cs2 (cursor_after r) HRa H2)
    as (HRf & Hlf & Hpf & Hef).
  rewrite <- Hfinal in HRf, Hlf, Hpf, Hef.
  split; [exact Hstep |].
  split; [unfold is_size_t in HRf; lia |].
  split; [lia |].
  split; [lia |].
  intros Hzero Hpos. subst r.
  destruct c as [n | n]; cbn [run_call call_len] in *.
  - rewrite advance_fails by lia. auto.
  - rewrite advance_nospec_fails by lia. auto.
Qed.

End CursorLifetime.

Lemma cursor_only_moves_forward_witness :
  len (run_calls gnu_toolchain 64 {| ptr := 4096; len := 11 |}
         ([Advance 5; AdvanceNospec 6] ++ Advance 1 :: [Advance 0])) <= 11 /\
  rv (run_call gnu_toolchain 64
        (run_calls gnu_toolchain 64 {| ptr := 4096; len := 11 |}
           [Advance 5; AdvanceNospec 6]) (Advance 1)) = empty_cursor.
Proof.
  assert (HR : is_size_t 64 (len {| ptr := 4096; len := 11 |}))
    by (vm_compute; split; discriminate).
  assert (Hall : Forall (fun c => is_size_t 64 (call_len c))
                   ([Advance 5; AdvanceNospec 6] ++ Advance 1 :: [Advance 0]))
    by (repeat constructor; vm_compute; discriminate).
  destruct (cursor_only_moves_forward gnu_toolchain 64
              {| ptr := 4096; len := 11 |}
              [Advance 5; AdvanceNospec 6] (Advance 1) [Advance 0] HR Hall)
    as (_ & ((_ & Ha) & (Hb & Hc)) & _ & _ & Hterm).
  split.
  - exact (Z.le_trans _ _ _ Ha (Z.le_trans _ _ _ Hb Hc)).
  - apply Hterm; reflexivity.
Defined.

(* ================================================================== *)
(** ** The order translator *)

Section OrderTranslator.

Variable E : aws_memory_order.

(** On an enumerator the translator returns. *)
Lemma xlate_order_returns order :
  In order (enumerators E) ->
  exists mo, aws_atomic_priv_xlate_order E order = Returned mo.
Proof.
  intros Hin. unfold aws_atomic_priv_xlate_order.
  destruct (order =? aws_memory_order_relaxed E) eqn:E1; [eauto |].
  destruct (order =? aws_memory_order_acquire E) eqn:E2; [eauto |].
  destruct (order =? aws_memory_order_release E) eqn:E3; [eauto |].
  destruct (order =? aws_memory_order_acq_rel E) eqn:E4; [eauto |].
  destruct (order =? aws_memory_order_seq_cst E) eqn:E5; [eauto |].
  apply Z.eqb_neq in E1, E2, E3, E4, E5.
  unfold enumerators in Hin. cbn [In] in Hin.
  intuition congruence.
Qed.

(** Off the enumeration it reaches the [default:] label. *)
Lemma xlate_order_aborts order :
  ~ In order (enumerators E) ->
  aws_atomic_priv_xlate_order E order = Aborted.
Proof.
  intros Hout. unfold enumerators in Hout. cbn [In] in Hout.
  unfold aws_atomic_priv_xlate_order.
  repeat match goal with
         | |- context [order =? ?x] =>
             destruct (Z.eqb_spec order x); [exfalso; intuition congruence |]
         end.
  reflexivity.
Qed.

(** C8. On each of the five enumerators the translator returns the
    matching [__ATOMIC_*] token; on every enumerator it returns; on any
    other argument it does not return a token but aborts. *)
Theorem xlate_order_total :
  NoDup (enumerators E) ->
  (aws_atomic_priv_xlate_order E (aws_memory_order_relaxed E)
     = Returned ATOMIC_RELAXED /\
   aws_atomic_priv_xlate_order E (aws_memory_order_acquire E)
     = Returned ATOMIC_ACQUIRE /\
   aws_atomic_priv_xlate_order E (aws_memory_order_release E)
     = Returned ATOMIC_RELEASE /\
   aws_atomic_priv_xlate_order E (aws_memory_order_acq_rel E)
     = Returned ATOMIC_ACQ_REL /\
   aws_atomic_priv_xlate_order E (aws_memory_order_seq_cst E)
     = Returned ATOMIC_SEQ_CST) /\
  (forall order, In order (enumerators E) ->
     exists mo, aws_atomic_priv_xlate_order E order = Returned mo) /\
  (forall order, ~ In order (enumerators E) ->
     aws_atomic_priv_xlate_order E order = Aborted).
Proof.
  intros Hnd. split; [| split].
  - unfold enumerators in Hnd.
    repeat match goal with
           | H : NoDup (_ :: _) |- _ =>
               let Hn := fresh "Hn" in
               let x := fresh "x" in
               let l := fresh "l" in
               inversion H as [| x l Hn ?]; subst x l; clear H;
               cbn [In] in Hn
           end.
    unfold aws_atomic_priv_xlate_order.
    repeat split;
      repeat match goal with
             | |- context [?a =? ?b] =>
                 destruct (Z.eqb_spec a b);
                 [try reflexivity; exfalso; intuition congruence |]
             end;
      congruence.
  - apply xlate_order_returns.
  - apply xlate_order_aborts.
Qed.

End OrderTranslator.

Lemma xlate_order_total_witness :
  aws_atomic_priv_xlate_order c11_orders 4 = Returned ATOMIC_ACQ_REL /\
  aws_atomic_priv_xlate_order c11_orders 1 = Aborted.
Proof.
  assert (Hnd : NoDup (enumerators c11_orders)).
  { unfold enumerators, c11_orders; cbn.
    repeat constructor; cbn [In]; intuition discriminate. }
  destruct (xlate_order_total c11_orders Hnd) as [(_ & _ & _ & H4 & _) [_ Hout]].
  split.
  - exact H4.
  - apply Hout. unfold enumerators, c11_orders; cbn.
    intuition discriminate.
Defined.

(* ================================================================== *)
(** ** The atomic operations, one thread *)

(** Rewrites the translator's result on a known enumerator. *)
Ltac xlate_known E o H :=
  let mo := fresh "mo" in
  let Hmo := fresh "Hmo" in
  destruct (xlate_order_returns E o H) as [mo Hmo];
  rewrite ?Hmo; cbn [obind].

Section AtomicVar.

Variable E : aws_memory_order.

Lemma load_int_word var o :
  In o (enumerators E) ->
  aws_atomic_load_int_explicit E var o = Returned (word var).
Proof.
  intros Ho. unfold aws_atomic_load_int_explicit.
  xlate_known E o Ho. reflexivity.
Qed.

Lemma load_ptr_word var o :
  In o (enumerators E) ->
  aws_atomic_load_ptr_explicit E var o = Returned (word var).
Proof.
  intros Ho. unfold aws_atomic_load_ptr_explicit.
  xlate_known E o Ho. reflexivity.
Qed.

(** C6. For an ordering o of the enumeration and a value v, integer or
    pointer: the load with ordering o that follows init(v) or
    store(v, o) returns v; exchange(v2, o) on a variable that holds v
    returns v, and the load that follows returns v2. *)
Theorem load_sees_last_write var v v2 o o' :
  In o (enumerators E) -> In o' (enumerators E) ->
  aws_atomic_load_int_explicit E (aws_atomic_init_int var v) o
    = Returned v /\
  aws_atomic_load_ptr_explicit E (aws_atomic_init_ptr var v) o
    = Returned v /\
  (exists var',
     aws_atomic_store_int_explicit E var v o = Returned var' /\
     aws_atomic_load_int_explicit E var' o = Returned v) /\
  (exists var',
     aws_atomic_store_ptr_explicit E var v o = Returned var' /\
     aws_atomic_load_ptr_explicit E var' o = Returned v) /\
  (exists var',
     aws_atomic_exchange_int_explicit E {| word := v |} v2 o
       = Returned (v, var') /\
     aws_atomic_load_int_explicit E var' o' = Returned v2) /\
  (exists var',
     aws_atomic_exchange_ptr_explicit E {| word := v |} v2 o
       = Returned (v, var') /\
     aws_atomic_load_ptr_explicit E var' o' = Returned v2).
Proof.
  intros Ho Ho'.
  split; [apply load_int_word; exact Ho |].
  split; [apply load_ptr_word; exact Ho |].
  unfold aws_atomic_store_int_explicit, aws_atomic_store_ptr_explicit,
    aws_atomic_exchange_int_explicit, aws_atomic_exchange_ptr_explicit.
  xlate_known E o Ho.
  repeat split; eexists; (split; [reflexivity |]);
    (apply load_int_word || apply load_ptr_word); assumption.
Qed.

(** C5. For a variable holding c, an expected value e and a desired
    value d: when e = c the compare-exchange returns true, the variable
    holds d and *expected is still e; when e <> c it returns false, the
    variable still holds c and *expected holds c.  The integer and the
    pointer variant behave alike. *)
Theorem compare_exchange_contract c e d order_success order_failure :
  In order_success (enumerators E) ->
  In order_failure (enumerators E) ->
  (e = c ->
     aws_atomic_compare_exchange_int_explicit E {| word := c |} e d
       order_success order_failure =
       Returned {| cas_ok := true; cas_var := {| word := d |};
                   cas_expected := e |} /\
     aws_atomic_compare_exchange_ptr_explicit E {| word := c |} e d
       order_success order_failure =
       Returned {| cas_ok := true; cas_var := {| word := d |};
                   cas_expected := e |}) /\
  (e <> c ->
     aws_atomic_compare_exchange_int_explicit E {| word := c |} e d
       order_success order_failure =
       Returned {| cas_ok := false; cas_var := {| word := c |};
                   cas_expected := c |} /\
     aws_atomic_compare_exchange_ptr_explicit E {| word := c |} e d
       order_success order_failure =
       Returned {| cas_ok := false; cas_var := {| word := c |};
                   cas_expected := c |}).
Proof.
  intros Hs Hf.
  unfold aws_atomic_compare_exchange_int_explicit,
    aws_atomic_compare_exchange_ptr_explicit,
    atomic_compare_exchange_n_strong, intval, ptrval.
  xlate_known E order_success Hs. xlate_known E order_failure Hf.
  cbn [word]. split; intros Hec.
  - subst e. rewrite Z.eqb_refl. split; reflexivity.
  - replace (c =? e) with false
      by (symmetry; apply Z.eqb_neq; congruence).
    split; reflexivity.
Qed.

(** C7. For an integer variable holding old, an operand n and an
    ordering o of the enumeration: fetch_add returns old and the load
    that follows returns (old + n) mod 2^w; fetch_sub returns old and
    leaves (old - n) mod 2^w; fetch_or, fetch_and and fetch_xor return
    old and leave old | n, old & n and old ^ n. *)
Theorem fetch_ops_contract (w : positive) old n o o' :
  In o (enumerators E) -> In o' (enumerators E) ->
  (exists var',
     aws_atomic_fetch_add_explicit E w {| word := old |} n o
       = Returned (old, var') /\
     aws_atomic_load_int_explicit E var' o'
       = Returned ((old + n) mod 2 ^ Z.pos w)) /\
  (exists var',
     aws_atomic_fetch_sub_explicit E w {| word := old |} n o
       = Returned (old, var') /\
     aws_atomic_load_int_explicit E var' o'
       = Returned ((old - n) mod 2 ^ Z.pos w)) /\
  (exists var',
     aws_atomic_fetch_or_explicit E {| word := old |} n o
       = Returned (old, var') /\
     aws_atomic_load_int_explicit E var' o' = Returned (Z.lor old n)) /\
  (exists var',
     aws_atomic_fetch_and_explicit E {| word := old |} n o
       = Returned (old, var') /\
     aws_atomic_load_int_explicit E var' o' = Returned (Z.land old n)) /\
  (exists var',
     aws_atomic_fetch_xor_explicit E {| word := old |} n o
       = Returned (old, var') /\
     aws_atomic_load_int_explicit E var' o' = Returned (Z.lxor old n)).
Proof.
  intros Ho Ho'.
  unfold aws_atomic_fetch_add_explicit, aws_atomic_fetch_sub_explicit,
    aws_atomic_fetch_or_explicit, aws_atomic_fetch_and_explicit,
    aws_atomic_fetch_xor_explicit.
  xlate_known E o Ho.
  repeat split; eexists; (split; [reflexivity |]);
    rewrite load_int_word by assumption; reflexivity.
Qed.

End AtomicVar.

Lemma c11_orders_member o :
  existsb (Z.eqb o) (enumerators c11_orders) = true ->
  In o (enumerators c11_orders).
Proof.
  intros H. apply existsb_exists in H. destruct H as [x [Hin Heq]].
  apply Z.eqb_eq in Heq. subst x. exact Hin.
Defined.

Lemma load_sees_last_write_witness :
  aws_atomic_load_int_explicit c11_orders
    (aws_atomic_init_int {| word := 0 |} 42) 2 = Returned 42 /\
  exists var',
    aws_atomic_exchange_int_explicit c11_orders {| word := 42 |} 7 2
      = Returned (42, var') /\
    aws_atomic_load_int_explicit c11_orders var' 5 = Returned 7.
Proof.
  destruct (load_sees_last_write c11_orders {| word := 0 |} 42 7 2 5
              (c11_orders_member 2 eq_refl) (c11_orders_member 5 eq_refl))
    as (Hinit & _ & _ & _ & Hxchg & _).
  split; [exact Hinit | exact Hxchg].
Defined.

Lemma compare_exchange_contract_witness :
  aws_atomic_compare_exchange_int_explicit c11_orders {| word := 3 |} 3 9 5 0
    = Returned {| cas_ok := true; cas_var := {| word := 9 |};
                  cas_expected := 3 |} /\
  aws_atomic_compare_exchange_ptr_explicit c11_orders {| word := 3 |} 4 9 5 0
    = Returned {| cas_ok := false; cas_var := {| word := 3 |};
                  cas_expected := 3 |}.
Proof.
  split.
  - apply (proj1 (compare_exchange_contract c11_orders 3 3 9 5 0
                    (c11_orders_member 5 eq_refl)
                    (c11_orders_member 0 eq_refl))).
    reflexivity.
  - apply (proj2 (compare_exchange_contract c11_orders 3 4 9 5 0
                    (c11_orders_member 5 eq_refl)
                    (c11_orders_member 0 eq_refl))).
    discriminate.
Defined.

Lemma fetch_ops_contract_witness :
  exists var',
    aws_atomic_fetch_add_explicit c11_orders 64 {| word := 2 ^ 64 - 1 |} 2 5
      = Returned (2 ^ 64 - 1, var') /\
    aws_atomic_load_int_explicit c11_orders var' 0
      = Returned ((2 ^ 64 - 1 + 2) mod 2 ^ 64).
Proof.
  exact (proj1 (fetch_ops_contract c11_orders 64 (2 ^ 64 - 1) 2 5 0
                  (c11_orders_member 5 eq_refl)
                  (c11_orders_member 0 eq_refl))).
Defined.

(* ================================================================== *)
(** ** Further properties of the index clamp *)

Section ClampSafety.

Variables (tc : toolchain) (w : positive).

(** The clamped value is a valid index of an array of [bound] elements
    whenever there is such an index: it lies in [0, bound) for every
    bound above 0, never exceeds the index given, and clamping it again
    changes nothing.  For bound 0 the result is 0, which is no valid
    index. *)
Theorem nospec_index_within_bound (index bound : Z) :
  is_size_t w index -> is_size_t w bound ->
  0 <= aws_nospec_index tc w index bound <= index /\
  (0 < bound -> aws_nospec_index tc w index bound < bound) /\
  (bound = 0 -> aws_nospec_index tc w index bound = 0) /\
  aws_nospec_index tc w (aws_nospec_index tc w index bound) bound =
    aws_nospec_index tc w index bound.
Proof.
  intros Hi Hb.
  assert (H0 : is_size_t w 0).
  { rewrite is_size_t_bounds. pose proof (half_pos w). lia. }
  rewrite (aws_nospec_index_spec w tc index bound Hi Hb).
  destruct ((index <? bound) && (bound <=? Z.shiftr (SIZE_MAX w) 1)) eqn:E.
  - apply andb_true_iff in E. destruct E as [E1 E2].
    apply Z.ltb_lt in E1.
    rewrite (aws_nospec_index_spec w tc index bound Hi Hb).
    apply Z.ltb_lt in E1 as E1'. rewrite E1', E2. cbn [andb].
    unfold is_size_t in Hi. repeat split; lia.
  - rewrite (aws_nospec_index_spec w tc 0 bound H0 Hb).
    unfold is_size_t in Hi.
    repeat split; try lia.
    destruct ((0 <? bound) && (bound <=? Z.shiftr (SIZE_MAX w) 1));
      reflexivity.
Qed.

End ClampSafety.

Lemma nospec_index_within_bound_witness :
  aws_nospec_index gnu_toolchain 64 25 16 < 16.
Proof.
  assert (R25 : is_size_t 64 25) by (vm_compute; split; discriminate).
  assert (R16 : is_size_t 64 16) by (vm_compute; split; discriminate).
  apply (proj1 (proj2
    (nospec_index_within_bound gnu_toolchain 64 25 16 R25 R16))).
  reflexivity.
Defined.

(** Neither the result of the clamp nor that of the speculation-safe
    advance depends on which of the two optimizer barriers was compiled
    in: adding 0 to a byte of the index leaves it as it is. *)
Theorem nospec_results_toolchain_independent (tc tc' : toolchain)
    (w : positive) (index bound : Z) (cursor : aws_byte_cursor) (n : Z) :
  volatile_byte_add index 0 = index /\
  aws_nospec_index tc w index bound = aws_nospec_index tc' w index bound /\
  aws_byte_cursor_advance_nospec tc w cursor n =
    aws_byte_cursor_advance_nospec tc' w cursor n.
Proof.
  assert (Hidx : forall i b,
            aws_nospec_index tc w i b = aws_nospec_index tc' w i b).
  { intros i b. unfold aws_nospec_index.
    rewrite !optimizer_barrier_id. reflexivity. }
  split; [| split].
  - unfold volatile_byte_add. rewrite Z.add_0_r, Z.mod_mod by lia. lia.
  - apply Hidx.
  - unfold aws_byte_cursor_advance_nospec. rewrite Hidx. reflexivity.
Qed.

(* ================================================================== *)
(** ** Edge cases of the two advance functions *)

Section AdvanceEdges.

Variables (tc : toolchain) (w : positive).

Lemma run_call_fails cursor c :
  call_len c > len cursor \/ call_len c > SIZE_MAX w / 2 \/
  len cursor > SIZE_MAX w / 2 ->
  run_call tc w cursor c = {| rv := empty_cursor; cursor_after := cursor |}.
Proof.
  intros Hg. destruct c as [n | n]; cbn [run_call call_len] in *.
  - apply advance_fails. exact Hg.
  - apply advance_nospec_fails. exact Hg.
Qed.

(** A cursor whose length exceeds SIZE_MAX/2 is stuck: every call of
    either function, whatever the requested length (0 included), returns
    the empty cursor and leaves the cursor as it is. *)
Theorem oversized_cursor_never_advances cursor cs :
  len cursor > SIZE_MAX w / 2 ->
  run_calls tc w cursor cs = cursor /\
  Forall (fun v => v = empty_cursor) (run_calls_returned tc w cursor cs).
Proof.
  intros Hbig. induction cs as [| c cs [IH1 IH2]].
  - split; [reflexivity | constructor].
  - cbn [run_calls run_calls_returned].
    rewrite run_call_fails by (right; right; exact Hbig).
    cbn [rv cursor_after]. split; [exact IH1 |].
    constructor; [reflexivity | exact IH2].
Qed.

Lemma advance_zero cursor :
  0 <= len cursor <= SIZE_MAX w / 2 ->
  aws_byte_cursor_advance w cursor 0 =
    {| rv := {| ptr := ptr cursor; len := 0 |}; cursor_after := cursor |} /\
  aws_byte_cursor_advance_nospec tc w cursor 0 =
    {| rv := {| ptr := ptr cursor; len := 0 |}; cursor_after := cursor |}.
Proof.
  intros HR.
  assert (Hh : 0 <= SIZE_MAX w / 2).
  { rewrite SIZE_MAX_half, SIZE_MAX_shiftr. pose proof (half_pos w). lia. }
  assert (Hs : is_size_t w (len cursor)).
  { rewrite is_size_t_bounds. rewrite SIZE_MAX_half, SIZE_MAX_shiftr in HR.
    lia. }
  assert (H0 : is_size_t w 0).
  { rewrite is_size_t_bounds. pose proof (half_pos w). lia. }
  rewrite advance_nospec_agrees by (assumption || (right; reflexivity)).
  rewrite advance_succeeds by (assumption || lia).
  rewrite Z.add_0_r, Z.sub_0_r. destruct cursor as [p R]. split; reflexivity.
Qed.

(** A request for 0 bytes on a cursor of at most SIZE_MAX/2 bytes
    succeeds in both functions: it returns the zero-length cursor at the
    current position and leaves the cursor as it is. *)
Theorem advance_zero_keeps_cursor cursor :
  0 <= len cursor <= SIZE_MAX w / 2 ->
  aws_byte_cursor_advance w cursor 0 =
    {| rv := {| ptr := ptr cursor; len := 0 |}; cursor_after := cursor |} /\
  aws_byte_cursor_advance_nospec tc w cursor 0 =
    {| rv := {| ptr := ptr cursor; len := 0 |}; cursor_after := cursor |}.
Proof. apply advance_zero. Qed.

(** On the empty cursor every call of either function returns the empty
    cursor and leaves the cursor empty, so the request for 0 bytes, which
    is granted, returns what a refused request returns. *)
Theorem empty_cursor_absorbs (c : advance_call) :
  is_size_t w (call_len c) ->
  run_call tc w empty_cursor c =
    {| rv := empty_cursor; cursor_after := empty_cursor |}.
Proof.
  intros Hn. unfold is_size_t in Hn.
  destruct (Z.eq_dec (call_len c) 0) as [Hz | Hnz].
  - assert (HR : 0 <= len empty_cursor <= SIZE_MAX w / 2).
    { cbn [empty_cursor len]. rewrite SIZE_MAX_half, SIZE_MAX_shiftr.
      pose proof (half_pos w). lia. }
    destruct (advance_zero empty_cursor HR) as [Ha Hb].
    destruct c as [n | n]; cbn [run_call call_len] in *; subst n.
    + exact Ha.
    + exact Hb.
  - apply run_call_fails. left. cbn [empty_cursor len]. lia.
Qed.

End AdvanceEdges.

Lemma oversized_cursor_never_advances_witness :
  run_calls gnu_toolchain 64 {| ptr := 4096; len := 2 ^ 63 |}
    [Advance 0; AdvanceNospec 1] = {| ptr := 4096; len := 2 ^ 63 |}.
Proof.
  apply (proj1 (oversized_cursor_never_advances gnu_toolchain 64
                  {| ptr := 4096; len := 2 ^ 63 |}
                  [Advance 0; AdvanceNospec 1] eq_refl)).
Defined.

Lemma advance_zero_keeps_cursor_witness :
  aws_byte_cursor_advance 64 {| ptr := 4096; len := 11 |} 0 =
    {| rv := {| ptr := 4096; len := 0 |};
       cursor_after := {| ptr := 4096; len := 11 |} |}.
Proof.
  assert (HR : 0 <= len {| ptr := 4096; len := 11 |} <= SIZE_MAX 64 / 2)
    by (split; vm_compute; discriminate).
  apply (proj1 (advance_zero_keeps_cursor gnu_toolchain 64
                  {| ptr := 4096; len := 11 |} HR)).
Defined.

Lemma empty_cursor_absorbs_witness :
  run_call msvc_toolchain 32 empty_cursor (AdvanceNospec 0) =
    {| rv := empty_cursor; cursor_after := empty_cursor |}.
Proof.
  assert (H0 : is_size_t 32 (call_len (AdvanceNospec 0)))
    by (split; vm_compute; discriminate).
  apply (empty_cursor_absorbs msvc_toolchain 32 (AdvanceNospec 0) H0).
Defined.

(* ================================================================== *)
(** ** Composition of calls *)

Section AdvanceComposition.

Variables (tc : toolchain) (w : positive).

(** Two granted requests in a row hand out two adjacent views and leave
    the cursor where one request for the sum of the two lengths leaves
    it; the view of that one request is the two views joined. *)
Theorem advance_splits cursor a b :
  is_size_t w (len cursor) -> 0 <= a -> 0 <= b ->
  a + b <= len cursor -> len cursor <= SIZE_MAX w / 2 ->
  let r1 := aws_byte_cursor_advance w cursor a in
  let r2 := aws_byte_cursor_advance w (cursor_after r1) b in
  let r := aws_byte_cursor_advance w cursor (a + b) in
  rv r1 = {| ptr := ptr cursor; len := a |} /\
  rv r2 = {| ptr := ptr cursor + a; len := b |} /\
  rv r = {| ptr := ptr (rv r1); len := len (rv r1) + len (rv r2) |} /\
  cursor_after r2 = cursor_after r.
Proof.
  intros HR Ha Hb Hab Hhalf r1 r2 r. subst r1 r2 r.
  rewrite (advance_succeeds w cursor a) by (assumption || lia).
  cbn [rv cursor_after].
  rewrite (advance_succeeds w _ b)
    by (cbn [len ptr]; unfold is_size_t in *; lia).
  rewrite (advance_succeeds w cursor (a + b)) by (assumption || lia).
  cbn [rv cursor_after ptr len].
  repeat split. f_equal; lia.
Qed.

(** When the second of two requests asks for more than the first one
    left, the first is granted, the second is refused, and the cursor
    stays where the first one put it. *)
Theorem advance_refuses_overrun cursor a b :
  is_size_t w (len cursor) -> 0 <= a <= len cursor ->
  len cursor <= SIZE_MAX w / 2 -> a + b > len cursor ->
  let r1 := aws_byte_cursor_advance w cursor a in
  let r2 := aws_byte_cursor_advance w (cursor_after r1) b in
  rv r1 = {| ptr := ptr cursor; len := a |} /\
  rv r2 = empty_cursor /\
  cursor_after r2 = {| ptr := ptr cursor + a; len := len cursor - a |}.
Proof.
  intros HR Ha Hhalf Hover r1 r2. subst r1 r2.
  rewrite (advance_succeeds w cursor a) by (assumption || lia).
  cbn [rv cursor_after].
  rewrite advance_fails by (left; cbn [len]; lia).
  repeat split.
Qed.

(** The speculation-safe advance hands out what the plain advance hands
    out, or less: either the two results are the same, or the remaining
    length is exactly SIZE_MAX >> 1, the request is for at least one
    byte that the plain advance grants, and the speculation-safe one
    returns a zero-length cursor without moving.  So it never returns
    more bytes, and whenever it returns at least one byte the two
    results are the same. *)
Theorem advance_nospec_never_exceeds cursor n :
  is_size_t w (len cursor) -> is_size_t w n ->
  let r := aws_byte_cursor_advance w cursor n in
  let r' := aws_byte_cursor_advance_nospec tc w cursor n in
  (r' = r \/
   (len cursor = Z.shiftr (SIZE_MAX w) 1 /\ 0 < n <= len cursor /\
    r' = {| rv := {| ptr := ptr cursor; len := 0 |};
            cursor_after := cursor |})) /\
  len (rv r') <= len (rv r) /\
  (0 < len (rv r') -> r' = r).
Proof.
  intros HR Hn r r'. subst r r'.
  destruct (Z.eq_dec (len cursor) (Z.shiftr (SIZE_MAX w) 1)) as [He | Hne].
  - destruct (Z_le_gt_dec n 0) as [Hz | Hpos].
    + assert (n = 0) by (unfold is_size_t in Hn; lia). subst n.
      rewrite advance_nospec_agrees by (assumption || (right; reflexivity)).
      split; [left; reflexivity | split; [lia | reflexivity]].
    + destruct (Z_le_gt_dec n (len cursor)) as [Hle | Hgt].
      * destruct (advance_nospec_differs tc w cursor n He) as [Ha Hb];
          [lia |].
        rewrite Ha, Hb. rewrite Z.add_0_r, Z.sub_0_r.
        cbn [rv len]. destruct cursor as [p R]. cbn [ptr len] in *.
        split; [right; repeat split; lia | split; lia].
      * rewrite advance_fails, advance_nospec_fails by lia.
        split; [left; reflexivity | split; [lia | reflexivity]].
  - rewrite advance_nospec_agrees by (assumption || (left; assumption)).
    split; [left; reflexivity | split; [lia | reflexivity]].
Qed.

End AdvanceComposition.

Lemma advance_splits_witness :
  cursor_after
    (aws_byte_cursor_advance 64
       (cursor_after (aws_byte_cursor_advance 64
                        {| ptr := 4096; len := 11 |} 5)) 6) =
  cursor_after (aws_byte_cursor_advance 64 {| ptr := 4096; len := 11 |} (5 + 6)).
Proof.
  assert (HR : is_size_t 64 (len {| ptr := 4096; len := 11 |}))
    by (split; vm_compute; discriminate).
  assert (Hh : len {| ptr := 4096; len := 11 |} <= SIZE_MAX 64 / 2)
    by (vm_compute; discriminate).
  assert (Hab : 5 + 6 <= len {| ptr := 4096; len := 11 |})
    by (vm_compute; discriminate).
  apply (advance_splits 64 {| ptr := 4096; len := 11 |} 5 6 HR
           ltac:(lia) ltac:(lia) Hab Hh).
Defined.

Lemma advance_refuses_overrun_witness :
  rv (aws_byte_cursor_advance 64
        (cursor_after (aws_byte_cursor_advance 64
                         {| ptr := 4096; len := 11 |} 5)) 7) = empty_cursor.
Proof.
  assert (HR : is_size_t 64 (len {| ptr := 4096; len := 11 |}))
    by (split; vm_compute; discriminate).
  assert (Hh : len {| ptr := 4096; len := 11 |} <= SIZE_MAX 64 / 2)
    by (vm_compute; discriminate).
  assert (Ha : 0 <= 5 <= len {| ptr := 4096; len := 11 |})
    by (split; vm_compute; discriminate).
  assert (Hover : 5 + 7 > len {| ptr := 4096; len := 11 |})
    by reflexivity.
  apply (advance_refuses_overrun 64 {| ptr := 4096; len := 11 |} 5 7
           HR Ha Hh Hover).
Defined.

Lemma advance_nospec_never_exceeds_witness :
  len (rv (aws_byte_cursor_advance_nospec gnu_toolchain 64
             {| ptr := 4096; len := 2 ^ 63 - 1 |} 8)) <=
  len (rv (aws_byte_cursor_advance 64
             {| ptr := 4096; len := 2 ^ 63 - 1 |} 8)).
Proof.
  assert (HR : is_size_t 64 (len {| ptr := 4096; len := 2 ^ 63 - 1 |}))
    by (split; vm_compute; discriminate).
  assert (Hn : is_size_t 64 8) by (split; vm_compute; discriminate).
  apply (advance_nospec_never_exceeds gnu_toolchain 64
           {| ptr := 4096; len := 2 ^ 63 - 1 |} 8 HR Hn).
Defined.

(* ================================================================== *)
(** ** The views a run of calls hands out *)

Section ReturnedViews.

Variables (tc : toolchain) (w : positive).

Lemma total_len_app l1 l2 :
  total_len (l1 ++ l2) = total_len l1 + total_len l2.
Proof.
  unfold total_len. induction l1 as [| v l1 IH]; cbn [app fold_right].
  - lia.
  - rewrite IH. lia.
Qed.

Lemma run_calls_returned_app cursor cs1 cs2 :
  run_calls_returned tc w cursor (cs1 ++ cs2) =
  run_calls_returned tc w cursor cs1
  ++ run_calls_returned tc w (run_calls tc w cursor cs1) cs2.
Proof.
  revert cursor. induction cs1 as [| c cs1 IH]; intros cursor.
  - reflexivity.
  - cbn [app run_calls_returned run_calls]. rewrite IH. reflexivity.
Qed.

(** The cursor after one call, for an in-range cursor and request: still
    in range, and moved by the length of the view returned. *)
Lemma run_call_moves cursor c :
  is_size_t w (len cursor) -> is_size_t w (call_len c) ->
  is_size_t w (len (cursor_after (run_call tc w cursor c))) /\
  0 <= len (rv (run_call tc w cursor c)) <= len cursor /\
  ptr (cursor_after (run_call tc w cursor c)) =
    ptr cursor + len (rv (run_call tc w cursor c)) /\
  len (cursor_after (run_call tc w cursor c)) =
    len cursor - len (rv (run_call tc w cursor c)) /\
  (rv (run_call tc w cursor c) = empty_cursor \/
   ptr (rv (run_call tc w cursor c)) = ptr cursor).
Proof.
  intros HR Hn.
  pose proof (run_call_step tc w cursor c HR Hn) as Hstep.
  cbv zeta in Hstep.
  destruct Hstep as [[Hrv Hafter] | (Hp & Hk & Hle & Hpa & Hla)].
  - rewrite Hrv, Hafter. cbn [empty_cursor len].
    unfold is_size_t in HR |- *.
    repeat split; try lia; try (left; reflexivity).
  - rewrite Hpa, Hla. unfold is_size_t in HR |- *.
    repeat split; try lia; try (right; exact Hp).
Qed.

Lemma returned_total cs : forall cursor,
  is_size_t w (len cursor) ->
  Forall (fun c => is_size_t w (call_len c)) cs ->
  total_len (run_calls_returned tc w cursor cs) =
    len cursor - len (run_calls tc w cursor cs) /\
  ptr (run_calls tc w cursor cs) =
    ptr cursor + total_len (run_calls_returned tc w cursor cs) /\
  0 <= total_len (run_calls_returned tc w cursor cs) <= len cursor.
Proof.
  induction cs as [| c cs IH]; intros cursor HR Hcs.
  - cbn [run_calls run_calls_returned]. unfold total_len. cbn [fold_right].
    unfold is_size_t in HR. lia.
  - inversion Hcs as [| c' cs' Hc Hcs']; subst.
    destruct (run_call_moves cursor c HR Hc) as (HR' & Hk & Hp & Hl & _).
    destruct (IH _ HR' Hcs') as (IH1 & IH2 & IH3).
    cbn [run_calls run_calls_returned].
    change (total_len (?v :: ?l)) with (len v + total_len l).
    lia.
Qed.

(** The bytes handed out add up: over any sequence of calls the lengths
    of the returned views sum to the decrease of the remaining length,
    and the pointer has moved forward by that sum. *)
Theorem returned_lengths_add_up cs : forall cursor,
  is_size_t w (len cursor) ->
  Forall (fun c => is_size_t w (call_len c)) cs ->
  total_len (run_calls_returned tc w cursor cs) =
    len cursor - len (run_calls tc w cursor cs) /\
  ptr (run_calls tc w cursor cs) =
    ptr cursor + total_len (run_calls_returned tc w cursor cs) /\
  0 <= total_len (run_calls_returned tc w cursor cs) <= len cursor.
Proof. apply returned_total. Qed.

(** No view leaves the original one, and the views do not overlap: the
    view a call returns, at any point of any sequence of calls, is the
    empty cursor or starts where the views returned before it end, and
    ends inside the view the sequence started from. *)
Theorem returned_views_inside_original cursor cs1 c cs2 :
  is_size_t w (len cursor) ->
  Forall (fun c => is_size_t w (call_len c)) (cs1 ++ c :: cs2) ->
  let v := rv (run_call tc w (run_calls tc w cursor cs1) c) in
  In v (run_calls_returned tc w cursor (cs1 ++ c :: cs2)) /\
  (v = empty_cursor \/
   (ptr v = ptr cursor + total_len (run_calls_returned tc w cursor cs1) /\
    0 <= len v /\
    ptr cursor <= ptr v /\
    ptr v + len v <= ptr cursor + len cursor)).
Proof.
  intros HR Hall v.
  apply Forall_app in Hall. destruct Hall as [H1 Hall].
  inversion Hall as [| c' cs' Hc H2]; subst c' cs'.
  destruct (returned_total cs1 cursor HR H1) as (Ht & Hp & Hb).
  destruct (run_calls_forward tc w cs1 cursor HR H1) as (HRb & Hlb & _ & _).
  destruct (run_call_moves (run_calls tc w cursor cs1) c HRb Hc)
    as (_ & Hk & _ & _ & Hv).
  fold v in Hk, Hv.
  split.
  - rewrite run_calls_returned_app. apply in_or_app. right.
    cbn [run_calls_returned]. left. reflexivity.
  - destruct Hv as [Hv | Hv]; [left; exact Hv | right].
    rewrite Hv, Hp. lia.
Qed.

End ReturnedViews.

Lemma returned_lengths_add_up_witness :
  total_len (run_calls_returned gnu_toolchain 64 {| ptr := 4096; len := 11 |}
               [Advance 5; AdvanceNospec 9; AdvanceNospec 2]) =
  len {| ptr := 4096; len := 11 |}
  - len (run_calls gnu_toolchain 64 {| ptr := 4096; len := 11 |}
           [Advance 5; AdvanceNospec 9; AdvanceNospec 2]).
Proof.
  assert (HR : is_size_t 64 (len {| ptr := 4096; len := 11 |}))
    by (split; vm_compute; discriminate).
  assert (Hall : Forall (fun c => is_size_t 64 (call_len c))
                   [Advance 5; AdvanceNospec 9; AdvanceNospec 2])
    by (repeat constructor; vm_compute; discriminate).
  apply (returned_lengths_add_up gnu_toolchain 64
           [Advance 5; AdvanceNospec 9; AdvanceNospec 2]
           {| ptr := 4096; len := 11 |} HR Hall).
Defined.

Lemma returned_views_inside_original_witness :
  In (rv (run_call gnu_toolchain 64
            (run_calls gnu_toolchain 64 {| ptr := 4096; len := 11 |}
               [Advance 5]) (AdvanceNospec 4)))
     (run_calls_returned gnu_toolchain 64 {| ptr := 4096; len := 11 |}
        ([Advance 5] ++ AdvanceNospec 4 :: [Advance 3])).
Proof.
  assert (HR : is_size_t 64 (len {| ptr := 4096; len := 11 |}))
    by (split; vm_compute; discriminate).
  assert (Hall : Forall (fun c => is_size_t 64 (call_len c))
                   ([Advance 5] ++ AdvanceNospec 4 :: [Advance 3]))
    by (repeat constructor; vm_compute; discriminate).
  apply (returned_views_inside_original gnu_toolchain 64
           {| ptr := 4096; len := 11 |} [Advance 5] (AdvanceNospec 4)
           [Advance 3] HR Hall).
Defined.

(* ================================================================== *)
(** ** From a buffer to a cursor *)

Section Buffers.

Variable w : positive.

Lemma strlen_terminated s rest :
  ~ In 0 s -> strlen (s ++ 0 :: rest) = Some (Z.of_nat (length s)).
Proof.
  induction s as [| c s IH]; intros Hnz.
  - reflexivity.
  - cbn [app strlen length].
    destruct (Z.eqb_spec c 0) as [-> | Hc];
      [exfalso; apply Hnz; left; reflexivity |].
    rewrite IH by (intros Hin; apply Hnz; right; exact Hin).
    f_equal. lia.
Qed.

Lemma strlen_unterminated chars : strlen chars = None <-> ~ In 0 chars.
Proof.
  induction chars as [| c chars IH]; cbn [strlen In].
  - split; [intros _ [] | reflexivity].
  - destruct (Z.eqb_spec c 0) as [-> | Hc].
    + split; [discriminate | intros H; exfalso; apply H; left; reflexivity].
    + destruct (strlen chars) as [n |].
      * split; [discriminate |].
        intros H. exfalso.
        assert (Hn : ~ In 0 chars) by (intros Hin; apply H; right; exact Hin).
        apply IH in Hn. discriminate Hn.
      * split; [| reflexivity].
        intros _ [Heq | Hin]; [congruence |].
        apply (proj1 IH); [reflexivity | exact Hin].
Qed.

(** Wrapping an array and wrapping a pointer with a length give the same
    buffer, and the cursor over a buffer of at most SIZE_MAX/2 bytes
    hands the whole buffer out in one call for its length: the view
    returned is the buffer, the cursor is left at the buffer's end with
    0 bytes, and any further request for at least one byte is refused. *)
Theorem cursor_hands_out_whole_buffer (p n k : Z) :
  0 <= n <= SIZE_MAX w / 2 -> 0 < k ->
  let buf := aws_byte_buf_from_array p n in
  let r := aws_byte_cursor_advance w (aws_byte_cursor_from_buf buf) n in
  buf = aws_byte_buf_from_c_str p n /\
  rv r = {| ptr := buffer buf; len := buf_len buf |} /\
  cursor_after r = {| ptr := p + n; len := 0 |} /\
  aws_byte_cursor_advance w (cursor_after r) k =
    {| rv := empty_cursor; cursor_after := cursor_after r |}.
Proof.
  intros Hn Hk buf r. subst buf r.
  unfold aws_byte_buf_from_array, aws_byte_buf_from_c_str,
    aws_byte_cursor_from_buf, ptr_add.
  cbn [buffer buf_len]. rewrite Z.add_0_r.
  assert (Hs : is_size_t w n).
  { rewrite is_size_t_bounds. rewrite SIZE_MAX_half, SIZE_MAX_shiftr in Hn.
    lia. }
  rewrite advance_succeeds by (cbn [len]; assumption || lia).
  cbn [rv cursor_after ptr len]. rewrite Z.sub_diag.
  repeat split.
  apply advance_fails. left. cbn [len]. lia.
Qed.

(** The buffer over a literal covers the bytes before its first zero
    byte and nothing after: with [s] free of zero bytes, the literal
    [s ++ 0 :: rest] gives the buffer of length [length s] at the
    literal's address, and the cursor over it hands out exactly those
    bytes.  A byte array without a zero byte gives no buffer. *)
Theorem literal_buffer_stops_at_terminator (literal : pointer)
    (s rest : list Z) :
  ~ In 0 s -> Z.of_nat (length s) <= SIZE_MAX w / 2 ->
  aws_byte_buf_from_literal literal (s ++ 0 :: rest) =
    Some {| buffer := literal; buf_len := Z.of_nat (length s) |} /\
  aws_byte_cursor_advance w
    (aws_byte_cursor_from_buf
       {| buffer := literal; buf_len := Z.of_nat (length s) |})
    (Z.of_nat (length s)) =
    {| rv := {| ptr := literal; len := Z.of_nat (length s) |};
       cursor_after := {| ptr := literal + Z.of_nat (length s);
                          len := 0 |} |} /\
  aws_byte_buf_from_literal literal s = None.
Proof.
  intros Hnz Hlen.
  unfold aws_byte_buf_from_literal.
  rewrite strlen_terminated by exact Hnz.
  rewrite (proj2 (strlen_unterminated s) Hnz).
  split; [reflexivity | split; [| reflexivity]].
  unfold aws_byte_cursor_from_buf. cbn [buffer buf_len].
  assert (Hs : is_size_t w (Z.of_nat (length s))).
  { rewrite is_size_t_bounds.
    rewrite SIZE_MAX_half, SIZE_MAX_shiftr in Hlen. lia. }
  rewrite advance_succeeds by (cbn [len]; assumption || lia).
  cbn [ptr len]. rewrite Z.sub_diag. reflexivity.
Qed.

End Buffers.

Lemma cursor_hands_out_whole_buffer_witness :
  cursor_after
    (aws_byte_cursor_advance 64
       (aws_byte_cursor_from_buf (aws_byte_buf_from_array 4096 11)) 11) =
  {| ptr := 4096 + 11; len := 0 |}.
Proof.
  assert (Hn : 0 <= 11 <= SIZE_MAX 64 / 2)
    by (split; vm_compute; discriminate).
  apply (cursor_hands_out_whole_buffer 64 4096 11 1 Hn ltac:(lia)).
Defined.

Lemma literal_buffer_stops_at_terminator_witness :
  aws_byte_buf_from_literal 4096 ([104; 105] ++ 0 :: [33; 0]) =
    Some {| buffer := 4096; buf_len := Z.of_nat (length [104; 105]) |}.
Proof.
  assert (Hnz : ~ In 0 [104; 105])
    by (cbn [In]; intros [H | [H | []]]; discriminate H).
  assert (Hlen : Z.of_nat (length [104; 105]) <= SIZE_MAX 64 / 2)
    by (vm_compute; discriminate).
  apply (literal_buffer_stops_at_terminator 64 4096 [104; 105] [33; 0]
           Hnz Hlen).
Defined.

(* ================================================================== *)
(** ** Further properties of the atomic operations *)

(** Bitwise AND and XOR of two [size_t] values are [size_t] values. *)
Lemma land_below n a b :
  0 <= n -> 0 <= a < 2 ^ n -> 0 <= b < 2 ^ n -> 0 <= Z.land a b < 2 ^ n.
Proof.
  intros Hn Ha Hb.
  assert (Hnn : 0 <= Z.land a b) by (apply Z.land_nonneg; lia).
  split; [exact Hnn |].
  destruct (Z.eq_dec (Z.land a b) 0) as [-> | Hnz]; [lia |].
  destruct (Z.eq_dec a 0) as [-> | Ha0]; [rewrite Z.land_0_l in Hnz; lia |].
  apply Z.log2_lt_pow2; [lia |].
  apply Z.le_lt_trans with (Z.min (Z.log2 a) (Z.log2 b));
    [apply Z.log2_land; lia |].
  apply Z.le_lt_trans with (Z.log2 a); [apply Z.le_min_l |].
  apply Z.log2_lt_pow2; lia.
Qed.

Lemma lxor_below n a b :
  0 <= n -> 0 <= a < 2 ^ n -> 0 <= b < 2 ^ n -> 0 <= Z.lxor a b < 2 ^ n.
Proof.
  intros Hn Ha Hb.
  assert (Hnn : 0 <= Z.lxor a b) by (apply Z.lxor_nonneg; lia).
  split; [exact Hnn |].
  destruct (Z.eq_dec (Z.lxor a b) 0) as [-> | Hnz]; [lia |].
  destruct (Z.eq_dec a 0) as [-> | Ha0];
    [rewrite Z.lxor_0_l; lia |].
  destruct (Z.eq_dec b 0) as [-> | Hb0];
    [rewrite Z.lxor_0_r; lia |].
  apply Z.log2_lt_pow2; [lia |].
  apply Z.le_lt_trans with (Z.max (Z.log2 a) (Z.log2 b));
    [apply Z.log2_lxor; lia |].
  apply Z.max_lub_lt; apply Z.log2_lt_pow2; lia.
Qed.

Section AtomicErrors.

Variable E : aws_memory_order.

Lemma obind_aborted {A B} (m : outcome A) :
  obind m (fun _ => @Aborted B) = Aborted.
Proof. destruct m; reflexivity. Qed.

(** An order outside the enumeration makes every operation on a variable
    abort: load, store, exchange and the five fetch operations, integer
    or pointer; a compare-exchange aborts as soon as one of its two
    orders is outside the enumeration, whatever the other one is and
    whether or not the comparison would have succeeded. *)
Theorem unknown_order_aborts (w : positive) var n e d order other :
  ~ In order (enumerators E) ->
  aws_atomic_load_int_explicit E var order = Aborted /\
  aws_atomic_load_ptr_explicit E var order = Aborted /\
  aws_atomic_store_int_explicit E var n order = Aborted /\
  aws_atomic_store_ptr_explicit E var n order = Aborted /\
  aws_atomic_exchange_int_explicit E var n order = Aborted /\
  aws_atomic_exchange_ptr_explicit E var n order = Aborted /\
  aws_atomic_fetch_add_explicit E w var n order = Aborted /\
  aws_atomic_fetch_sub_explicit E w var n order = Aborted /\
  aws_atomic_fetch_or_explicit E var n order = Aborted /\
  aws_atomic_fetch_and_explicit E var n order = Aborted /\
  aws_atomic_fetch_xor_explicit E var n order = Aborted /\
  aws_atomic_compare_exchange_int_explicit E var e d order other = Aborted /\
  aws_atomic_compare_exchange_int_explicit E var e d other order = Aborted /\
  aws_atomic_compare_exchange_ptr_explicit E var e d order other = Aborted /\
  aws_atomic_compare_exchange_ptr_explicit E var e d other order = Aborted.
Proof.
  intros Hout. pose proof (xlate_order_aborts E order Hout) as Hx.
  unfold aws_atomic_load_int_explicit, aws_atomic_load_ptr_explicit,
    aws_atomic_store_int_explicit, aws_atomic_store_ptr_explicit,
    aws_atomic_exchange_int_explicit, aws_atomic_exchange_ptr_explicit,
    aws_atomic_fetch_add_explicit, aws_atomic_fetch_sub_explicit,
    aws_atomic_fetch_or_explicit, aws_atomic_fetch_and_explicit,
    aws_atomic_fetch_xor_explicit,
    aws_atomic_compare_exchange_int_explicit,
    aws_atomic_compare_exchange_ptr_explicit.
  rewrite Hx. cbn [obind].
  repeat split; apply obind_aborted.
Qed.

End AtomicErrors.

Lemma unknown_order_aborts_witness :
  aws_atomic_compare_exchange_int_explicit c11_orders {| word := 3 |} 3 9 5 1
    = Aborted.
Proof.
  assert (Hout : ~ In 1 (enumerators c11_orders))
    by (unfold enumerators, c11_orders; cbn; intuition discriminate).
  apply (unknown_order_aborts c11_orders 64 {| word := 3 |} 0 3 9 1 5 Hout).
Defined.

Section AtomicComposition.

Variables (E : aws_memory_order) (w : positive).

(** The retry idiom: a compare-exchange that fails hands back the value
    the variable holds, and the same call repeated with that value as
    the expected one succeeds and stores the desired value. *)
Theorem compare_exchange_retry_succeeds c e d order_success order_failure :
  In order_success (enumerators E) ->
  In order_failure (enumerators E) ->
  e <> c ->
  exists r1,
    aws_atomic_compare_exchange_int_explicit E {| word := c |} e d
      order_success order_failure = Returned r1 /\
    cas_ok r1 = false /\
    aws_atomic_compare_exchange_int_explicit E (cas_var r1)
      (cas_expected r1) d order_success order_failure =
      Returned {| cas_ok := true; cas_var := {| word := d |};
                  cas_expected := c |}.
Proof.
  intros Hs Hf Hne.
  unfold aws_atomic_compare_exchange_int_explicit,
    atomic_compare_exchange_n_strong, intval.
  xlate_known E order_success Hs. xlate_known E order_failure Hf.
  cbn [word].
  replace (c =? e) with false by (symmetry; apply Z.eqb_neq; congruence).
  eexists. split; [reflexivity |]. cbn [cas_of cas_ok cas_var cas_expected word].
  rewrite Z.eqb_refl. split; reflexivity.
Qed.

(** Exchange and the fetch operations are a load followed by a store
    with the same order: they return what the load returns and leave
    what the store of the new value leaves, and they abort when those
    abort. *)
Theorem read_modify_write_decomposes var n order :
  aws_atomic_exchange_int_explicit E var n order =
    (old <- aws_atomic_load_int_explicit E var order ;;
     var' <- aws_atomic_store_int_explicit E var n order ;;
     Returned (old, var')) /\
  aws_atomic_exchange_ptr_explicit E var n order =
    (old <- aws_atomic_load_ptr_explicit E var order ;;
     var' <- aws_atomic_store_ptr_explicit E var n order ;;
     Returned (old, var')) /\
  aws_atomic_fetch_add_explicit E w var n order =
    (old <- aws_atomic_load_int_explicit E var order ;;
     var' <- aws_atomic_store_int_explicit E var (size_add w old n) order ;;
     Returned (old, var')) /\
  aws_atomic_fetch_sub_explicit E w var n order =
    (old <- aws_atomic_load_int_explicit E var order ;;
     var' <- aws_atomic_store_int_explicit E var (size_sub w old n) order ;;
     Returned (old, var')) /\
  aws_atomic_fetch_or_explicit E var n order =
    (old <- aws_atomic_load_int_explicit E var order ;;
     var' <- aws_atomic_store_int_explicit E var (Z.lor old n) order ;;
     Returned (old, var')) /\
  aws_atomic_fetch_and_explicit E var n order =
    (old <- aws_atomic_load_int_explicit E var order ;;
     var' <- aws_atomic_store_int_explicit E var (Z.land old n) order ;;
     Returned (old, var')) /\
  aws_atomic_fetch_xor_explicit E var n order =
    (old <- aws_atomic_load_int_explicit E var order ;;
     var' <- aws_atomic_store_int_explicit E var (Z.lxor old n) order ;;
     Returned (old, var')).
Proof.
  unfold aws_atomic_exchange_int_explicit, aws_atomic_exchange_ptr_explicit,
    aws_atomic_fetch_add_explicit, aws_atomic_fetch_sub_explicit,
    aws_atomic_fetch_or_explicit, aws_atomic_fetch_and_explicit,
    aws_atomic_fetch_xor_explicit,
    aws_atomic_load_int_explicit, aws_atomic_load_ptr_explicit,
    aws_atomic_store_int_explicit, aws_atomic_store_ptr_explicit.
  destruct (aws_atomic_priv_xlate_order E order) as [mo |];
    cbn [obind]; repeat split.
Qed.

(** Subtracting what was added restores the variable, wrap-around
    included; a second XOR with the same operand restores it too; and
    two additions leave what one addition of the sum leaves. *)
Theorem fetch_round_trips old n m order :
  In order (enumerators E) -> is_size_t w old ->
  (r <- aws_atomic_fetch_add_explicit E w {| word := old |} n order ;;
   aws_atomic_fetch_sub_explicit E w (snd r) n order) =
    Returned ((old + n) mod 2 ^ Z.pos w, {| word := old |}) /\
  (r <- aws_atomic_fetch_xor_explicit E {| word := old |} n order ;;
   aws_atomic_fetch_xor_explicit E (snd r) n order) =
    Returned (Z.lxor old n, {| word := old |}) /\
  (r <- aws_atomic_fetch_add_explicit E w {| word := old |} n order ;;
   r' <- aws_atomic_fetch_add_explicit E w (snd r) m order ;;
   Returned (snd r')) =
  (r <- aws_atomic_fetch_add_explicit E w {| word := old |} (n + m) order ;;
   Returned (snd r)).
Proof.
  intros Ho Hold.
  unfold aws_atomic_fetch_add_explicit, aws_atomic_fetch_sub_explicit,
    aws_atomic_fetch_xor_explicit, atomic_fetch_add, atomic_fetch_sub,
    atomic_fetch_xor, on_var, intval.
  xlate_known E order Ho. cbn [fst snd word obind]. rewrite ?Hmo.
  cbn [obind fst snd word].
  unfold size_add, size_sub, size_wrap.
  split; [| split].
  - rewrite Zminus_mod_idemp_l.
    replace (old + n - n) with old by lia.
    fold (size_wrap w old). rewrite size_wrap_small by exact Hold.
    reflexivity.
  - rewrite Z.lxor_assoc, Z.lxor_nilpotent, Z.lxor_0_r. reflexivity.
  - rewrite Zplus_mod_idemp_l. rewrite Z.add_assoc. reflexivity.
Qed.

(** The variable stays a [size_t]: with an in-range word and in-range
    operands, what every operation leaves in the variable, and what it
    returns, is in range. *)
Theorem word_stays_size_t old n e d order other :
  In order (enumerators E) -> In other (enumerators E) ->
  is_size_t w old -> is_size_t w n -> is_size_t w e -> is_size_t w d ->
  (exists var',
     aws_atomic_store_int_explicit E {| word := old |} n order
       = Returned var' /\ is_size_t w (word var')) /\
  (exists v var',
     aws_atomic_exchange_int_explicit E {| word := old |} n order
       = Returned (v, var') /\ is_size_t w v /\ is_size_t w (word var')) /\
  (exists v var',
     aws_atomic_fetch_add_explicit E w {| word := old |} n order
       = Returned (v, var') /\ is_size_t w v /\ is_size_t w (word var')) /\
  (exists v var',
     aws_atomic_fetch_sub_explicit E w {| word := old |} n order
       = Returned (v, var') /\ is_size_t w v /\ is_size_t w (word var')) /\
  (exists v var',
     aws_atomic_fetch_or_explicit E {| word := old |} n order
       = Returned (v, var') /\ is_size_t w v /\ is_size_t w (word var')) /\
  (exists v var',
     aws_atomic_fetch_and_explicit E {| word := old |} n order
       = Returned (v, var') /\ is_size_t w v /\ is_size_t w (word var')) /\
  (exists v var',
     aws_atomic_fetch_xor_explicit E {| word := old |} n order
       = Returned (v, var') /\ is_size_t w v /\ is_size_t w (word var')) /\
  (exists r,
     aws_atomic_compare_exchange_int_explicit E {| word := old |} e d
       order other = Returned r /\
     is_size_t w (word (cas_var r)) /\ is_size_t w (cas_expected r)).
Proof.
  intros Ho Hother Hold Hn He Hd.
  assert (Hpow : SIZE_MAX w = 2 ^ Z.pos w - 1) by reflexivity.
  assert (Hlor : is_size_t w (Z.lor old n)).
  { unfold is_size_t in *. rewrite Hpow in *.
    pose proof (lor_below (Z.pos w) old n). lia. }
  assert (Hland : is_size_t w (Z.land old n)).
  { unfold is_size_t in *. rewrite Hpow in *.
    pose proof (land_below (Z.pos w) old n). lia. }
  assert (Hlxor : is_size_t w (Z.lxor old n)).
  { unfold is_size_t in *. rewrite Hpow in *.
    pose proof (lxor_below (Z.pos w) old n). lia. }
  unfold aws_atomic_store_int_explicit, aws_atomic_exchange_int_explicit,
    aws_atomic_fetch_add_explicit, aws_atomic_fetch_sub_explicit,
    aws_atomic_fetch_or_explicit, aws_atomic_fetch_and_explicit,
    aws_atomic_fetch_xor_explicit, aws_atomic_compare_exchange_int_explicit,
    atomic_store_n, atomic_exchange_n, atomic_fetch_add, atomic_fetch_sub,
    atomic_fetch_or, atomic_fetch_and, atomic_fetch_xor,
    atomic_compare_exchange_n_strong, on_var, intval.
  xlate_known E order Ho. xlate_known E other Hother.
  cbn [fst snd word].
  split; [eexists; split; [reflexivity | exact Hn] |].
  repeat (split;
    [do 2 eexists; split; [reflexivity |]; cbn [word];
     split; [exact Hold |]; try assumption;
     unfold size_add, size_sub; apply size_wrap_range |]).
  eexists. split; [reflexivity |].
  destruct (old =? e); cbn [cas_of cas_var cas_expected word];
    split; assumption.
Qed.

(** The integer and the pointer operations work on the same word: what
    is stored as a pointer is what an integer load reads, and the other
    way round. *)
Theorem int_and_ptr_share_the_word var x order :
  In order (enumerators E) ->
  (var' <- aws_atomic_store_ptr_explicit E var x order ;;
   aws_atomic_load_int_explicit E var' order) = Returned x /\
  (var' <- aws_atomic_store_int_explicit E var x order ;;
   aws_atomic_load_ptr_explicit E var' order) = Returned x /\
  aws_atomic_load_int_explicit E (aws_atomic_init_ptr var x) order
    = Returned x /\
  aws_atomic_load_ptr_explicit E (aws_atomic_init_int var x) order
    = Returned x.
Proof.
  intros Ho.
  unfold aws_atomic_store_ptr_explicit, aws_atomic_store_int_explicit.
  xlate_known E order Ho.
  rewrite ?load_int_word, ?load_ptr_word by assumption.
  repeat split.
Qed.

End AtomicComposition.

Lemma compare_exchange_retry_succeeds_witness :
  exists r1,
    aws_atomic_compare_exchange_int_explicit c11_orders {| word := 3 |} 4 9
      5 0 = Returned r1 /\
    cas_ok r1 = false /\
    aws_atomic_compare_exchange_int_explicit c11_orders (cas_var r1)
      (cas_expected r1) 9 5 0 =
      Returned {| cas_ok := true; cas_var := {| word := 9 |};
                  cas_expected := 3 |}.
Proof.
  apply (compare_exchange_retry_succeeds c11_orders 3 4 9 5 0
           (c11_orders_member 5 eq_refl) (c11_orders_member 0 eq_refl)).
  discriminate.
Defined.

Lemma fetch_round_trips_witness :
  (r <- aws_atomic_fetch_add_explicit c11_orders 64
          {| word := 2 ^ 64 - 1 |} 2 5 ;;
   aws_atomic_fetch_sub_explicit c11_orders 64 (snd r) 2 5) =
    Returned ((2 ^ 64 - 1 + 2) mod 2 ^ 64, {| word := 2 ^ 64 - 1 |}).
Proof.
  assert (Hold : is_size_t 64 (2 ^ 64 - 1))
    by (split; vm_compute; discriminate).
  apply (fetch_round_trips c11_orders 64 (2 ^ 64 - 1) 2 0 5
           (c11_orders_member 5 eq_refl) Hold).
Defined.

Lemma word_stays_size_t_witness :
  exists v var',
    aws_atomic_fetch_sub_explicit c11_orders 64 {| word := 1 |} 2 5
      = Returned (v, var') /\ is_size_t 64 v /\ is_size_t 64 (word var').
Proof.
  assert (R1 : is_size_t 64 1) by (split; vm_compute; discriminate).
  assert (R2 : is_size_t 64 2) by (split; vm_compute; discriminate).
  apply (word_stays_size_t c11_orders 64 1 2 1 2 5 0
           (c11_orders_member 5 eq_refl) (c11_orders_member 0 eq_refl)
           R1 R2 R1 R2).
Defined.

Lemma int_and_ptr_share_the_word_witness :
  (var' <- aws_atomic_store_ptr_explicit c11_orders {| word := 0 |} 4096 5 ;;
   aws_atomic_load_int_explicit c11_orders var' 5) = Returned 4096.
Proof.
  apply (int_and_ptr_share_the_word c11_orders {| word := 0 |} 4096 5
           (c11_orders_member 5 eq_refl)).
Defined.

(* ================================================================== *)
(** ** The thread fence *)

Section ThreadFence.

Variable E : aws_memory_order.

(** With distinct enumerators each one reaches its own [case] label. *)
Lemma xlate_order_on_enumerators :
  NoDup (enumerators E) ->
  aws_atomic_priv_xlate_order E (aws_memory_order_relaxed E)
    = Returned ATOMIC_RELAXED /\
  aws_atomic_priv_xlate_order E (aws_memory_order_acquire E)
    = Returned ATOMIC_ACQUIRE /\
  aws_atomic_priv_xlate_order E (aws_memory_order_release E)
    = Returned ATOMIC_RELEASE /\
  aws_atomic_priv_xlate_order E (aws_memory_order_acq_rel E)
    = Returned ATOMIC_ACQ_REL /\
  aws_atomic_priv_xlate_order E (aws_memory_order_seq_cst E)
    = Returned ATOMIC_SEQ_CST.
Proof.
  intros Hnd. unfold enumerators in Hnd.
  assert (Hd : aws_memory_order_relaxed E <> aws_memory_order_acquire E /\
               aws_memory_order_relaxed E <> aws_memory_order_release E /\
               aws_memory_order_relaxed E <> aws_memory_order_acq_rel E /\
               aws_memory_order_relaxed E <> aws_memory_order_seq_cst E /\
               aws_memory_order_acquire E <> aws_memory_order_release E /\
               aws_memory_order_acquire E <> aws_memory_order_acq_rel E /\
               aws_memory_order_acquire E <> aws_memory_order_seq_cst E /\
               aws_memory_order_release E <> aws_memory_order_acq_rel E /\
               aws_memory_order_release E <> aws_memory_order_seq_cst E /\
               aws_memory_order_acq_rel E <> aws_memory_order_seq_cst E).
  { inversion Hnd as [| x1 l1 N1 D1]; subst.
    inversion D1 as [| x2 l2 N2 D2]; subst.
    inversion D2 as [| x3 l3 N3 D3]; subst.
    inversion D3 as [| x4 l4 N4 D4]; subst.
    cbn [In] in N1, N2, N3, N4. intuition congruence. }
  destruct Hd as (D12 & D13 & D14 & D15 & D23 & D24 & D25 & D34 & D35 & D45).
  unfold aws_atomic_priv_xlate_order.
  rewrite !Z.eqb_refl.
  repeat match goal with
         | H : ?a <> ?b |- _ =>
             rewrite (proj2 (Z.eqb_neq b a)) by congruence; clear H
         end.
  repeat split.
Qed.

(** The fence does not go through the order translator: it never
    aborts, not even on an order outside the enumeration, where every
    other operation aborts; and on the enumerators it is executed with
    the order the translator yields exactly when the enumeration is
    numbered like the compiler's macros, 0, 2, 3, 4, 5. *)
Theorem thread_fence_skips_translator :
  NoDup (enumerators E) ->
  (forall order, ~ In order (enumerators E) ->
     aws_atomic_thread_fence order = Returned order /\
     aws_atomic_priv_xlate_order E order = Aborted) /\
  ((forall order, In order (enumerators E) ->
      aws_atomic_thread_fence order = aws_atomic_priv_xlate_order E order)
   <-> E = c11_orders).
Proof.
  intros Hnd. split.
  - intros order Hout. split; [reflexivity |].
    apply xlate_order_aborts. exact Hout.
  - destruct (xlate_order_on_enumerators Hnd) as (X1 & X2 & X3 & X4 & X5).
    split.
    + intros Hsame.
      assert (F : forall o, In o (enumerators E) ->
                    Returned o = aws_atomic_priv_xlate_order E o)
        by (intros o Ho; apply (Hsame o Ho)).
      pose proof (F _ (or_introl eq_refl)) as F1.
      pose proof (F _ (or_intror (or_introl eq_refl))) as F2.
      pose proof (F _ (or_intror (or_intror (or_introl eq_refl)))) as F3.
      pose proof (F _ (or_intror (or_intror (or_intror (or_introl eq_refl)))))
        as F4.
      pose proof (F _ (or_intror (or_intror (or_intror
                        (or_intror (or_introl eq_refl)))))) as F5.
      rewrite X1 in F1. rewrite X2 in F2. rewrite X3 in F3.
      rewrite X4 in F4. rewrite X5 in F5.
      injection F1 as F1. injection F2 as F2. injection F3 as F3.
      injection F4 as F4. injection F5 as F5.
      destruct E as [a b c d e]. cbn in F1, F2, F3, F4, F5.
      unfold c11_orders. subst. reflexivity.
    + intros HE order Ho. rewrite HE in Ho |- *.
      unfold enumerators, c11_orders in Ho. cbn in Ho.
      destruct Ho as [<- | [<- | [<- | [<- | [<- | []]]]]]; reflexivity.
Qed.

End ThreadFence.

Lemma thread_fence_skips_translator_witness :
  aws_atomic_thread_fence 1 = Returned 1 /\
  aws_atomic_priv_xlate_order c11_orders 1 = Aborted.
Proof.
  assert (Hnd : NoDup (enumerators c11_orders)).
  { unfold enumerators, c11_orders; cbn.
    repeat constructor; cbn [In]; intuition discriminate. }
  apply (proj1 (thread_fence_skips_translator c11_orders Hnd)).
  unfold enumerators, c11_orders; cbn. intuition discriminate.
Defined.

(* ================================================================== *)
(** ** Telling a refused request from a granted one *)

Section FailureSignal.

Variables (tc : toolchain) (w : positive).

(** On a cursor whose pointer is not NULL the returned pointer tells
    whether the request was granted: it is NULL exactly when the request
    exceeds the remaining length or one of the two exceeds SIZE_MAX/2,
    for both functions. *)
Theorem null_return_signals_failure cursor c :
  is_size_t w (len cursor) -> is_size_t w (call_len c) ->
  ptr cursor <> NULL ->
  (ptr (rv (run_call tc w cursor c)) = NULL <->
   call_len c > len cursor \/ call_len c > SIZE_MAX w / 2 \/
   len cursor > SIZE_MAX w / 2).
Proof.
  intros HR Hn Hp. split.
  - intros Hnull.
    destruct (Z_gt_le_dec (call_len c) (len cursor)) as [G1 | L1];
      [left; exact G1 |].
    destruct (Z_gt_le_dec (call_len c) (SIZE_MAX w / 2)) as [G2 | L2];
      [right; left; exact G2 |].
    destruct (Z_gt_le_dec (len cursor) (SIZE_MAX w / 2)) as [G3 | L3];
      [right; right; exact G3 |].
    exfalso. apply Hp. rewrite <- Hnull.
    assert (Hn0 : 0 <= call_len c) by (unfold is_size_t in Hn; lia).
    destruct c as [n | n]; cbn [run_call call_len] in *.
    + rewrite advance_succeeds by assumption. reflexivity.
    + rewrite advance_nospec_succeeds by assumption. reflexivity.
  - intros Hg. rewrite run_call_fails by exact Hg. reflexivity.
Qed.

(** Below SIZE_MAX >> 1 remaining bytes the two functions can be used
    one for the other throughout the life of a cursor: any sequence of
    calls returns the same views and leaves the same cursor as the
    sequence with every call made through [aws_byte_cursor_advance]. *)
Theorem advance_nospec_interchangeable cs : forall cursor,
  is_size_t w (len cursor) -> len cursor < Z.shiftr (SIZE_MAX w) 1 ->
  Forall (fun c => is_size_t w (call_len c)) cs ->
  run_calls tc w cursor cs = run_calls tc w cursor (map plain_call cs) /\
  run_calls_returned tc w cursor cs =
    run_calls_returned tc w cursor (map plain_call cs).
Proof.
  induction cs as [| c cs IH]; intros cursor HR Hlt Hcs.
  - split; reflexivity.
  - inversion Hcs as [| c' cs' Hc Hcs']; subst.
    assert (Hsame : run_call tc w cursor c = run_call tc w cursor (plain_call c)).
    { destruct c as [n | n]; cbn [run_call plain_call call_len] in *.
      - reflexivity.
      - apply advance_nospec_agrees; [assumption | assumption | left; lia]. }
    destruct (run_call_moves tc w cursor c HR Hc) as (HR' & Hk & _ & Hl & _).
    cbn [map run_calls run_calls_returned]. rewrite <- Hsame.
    destruct (IH (cursor_after (run_call tc w cursor c)) HR' ltac:(lia) Hcs')
      as [IH1 IH2].
    rewrite IH1, IH2. split; reflexivity.
Qed.

End FailureSignal.

Lemma null_return_signals_failure_witness :
  ptr (rv (run_call gnu_toolchain 64 {| ptr := 4096; len := 11 |}
             (AdvanceNospec 12))) = NULL.
Proof.
  assert (HR : is_size_t 64 (len {| ptr := 4096; len := 11 |}))
    by (split; vm_compute; discriminate).
  assert (Hn : is_size_t 64 (call_len (AdvanceNospec 12)))
    by (split; vm_compute; discriminate).
  assert (Hp : ptr {| ptr := 4096; len := 11 |} <> NULL)
    by (vm_compute; discriminate).
  apply (proj2 (null_return_signals_failure gnu_toolchain 64
                  {| ptr := 4096; len := 11 |} (AdvanceNospec 12) HR Hn Hp)).
  left. reflexivity.
Defined.

Lemma advance_nospec_interchangeable_witness :
  run_calls_returned gnu_toolchain 64 {| ptr := 4096; len := 11 |}
    [AdvanceNospec 5; Advance 7; AdvanceNospec 6] =
  run_calls_returned gnu_toolchain 64 {| ptr := 4096; len := 11 |}
    (map plain_call [AdvanceNospec 5; Advance 7; AdvanceNospec 6]).
Proof.
  assert (HR : is_size_t 64 (len {| ptr := 4096; len := 11 |}))
    by (split; vm_compute; discriminate).
  assert (Hlt : len {| ptr := 4096; len := 11 |} < Z.shiftr (SIZE_MAX 64) 1)
    by reflexivity.
  assert (Hall : Forall (fun c => is_size_t 64 (call_len c))
                   [AdvanceNospec 5; Advance 7; AdvanceNospec 6])
    by (repeat constructor; vm_compute; discriminate).
  apply (advance_nospec_interchangeable gnu_toolchain 64
           [AdvanceNospec 5; Advance 7; AdvanceNospec 6]
           {| ptr := 4096; len := 11 |} HR Hlt Hall).
Defined.
